(** * Industrial HR dashboard: the data pipeline of [ihr_app_final.py]

    A shallow embedding of [process_data] (validator and transformer) and
    [generate_insights] (insight engine), and the properties the
    specification states about them; then the sidebar metrics of [main]
    and the data of the four overview charts, with further properties of
    the pipeline.

    Modelling conventions.
    - A pandas [DataFrame] is a header (the list of column labels, in
      order) and a list of rows; a row is a finite map from column label to
      cell.  A label a row does not bind reads as the missing value, as a
      short CSV line does in pandas.  Column labels are distinct.
    - A cell is text, a number, or the missing value (NaN).  A number is
      given by its value, a rational ([Qc]); no cell of a table holds an
      infinity, and the only non-finite values are the ones a division by
      zero produces ([float]).
    - The pipeline is embedded twice.  [process_data] and
      [generate_insights] compute in exact rationals.  [process_data_with]
      and [generate_insights_with] are the same code with the arithmetic
      of the columns as a parameter ([arithmetic]): the rounding to a
      double, the addition of two count columns and the loops that add a
      column up.  Exact arithmetic is one instance ([exact]), and the
      definitions agree on it by computation; int64 counts, which wrap
      around, and float64 counts, which round, are two more
      ([int64_counts], [doubles]), with the doubles given by [round64].
      A statement whose truth depends on rounding or wrap-around (a sign, a
      tie, an order, a bound) is made on the second embedding, for every
      arithmetic or for those that have the properties it names, which
      int64 and doubles are proved to have.
    - Text is a string of bytes, the UTF-8 encoding of a Python [str];
      [str.lower] is modelled on the letters A-Z, and what is stated about
      it is stated for names written in ASCII.
    - [pd.to_numeric] parses text with pandas' number parser, which is a
      parameter of the development: [parse_float] where only its finite
      results matter, and a parser into doubles ([parse], with infinities)
      where a statement depends on the coerced values.
    - [Series.sort_values] and [DataFrame.nlargest] are parameters of the
      chart functions that call them: pandas fixes their result up to the
      order among equal values only.
    - [load_data] (file upload and [read_csv]) and the plotly and streamlit
      calls are outside the model. *)

From Stdlib Require Import QArith Qcanon Qround Qpower Ascii String.
From stdpp Require Import base numbers list strings gmap sorting.

Local Open Scope Qc_scope.

(** ** Text *)

(** [c.lower()] on one ASCII character: A-Z move to a-z. *)
Definition lower_ascii (c : ascii) : ascii :=
  let n := N_of_ascii c in
  if ((65 <=? n) && (n <=? 90))%N then ascii_of_N (n + 32) else c.


Fixpoint map_string (f : ascii → ascii) (s : string) : string :=
  match s with
  | EmptyString => EmptyString
  | String c s' => String (f c) (map_string f s')
  end.

(** [s.lower()] *)
Definition lower (s : string) : string := map_string lower_ascii s.

(** [x in s] for strings: [x] occurs in [s] as a contiguous substring. *)
Fixpoint contains (x s : string) : bool :=
  String.prefix x s ||
  match s with
  | EmptyString => false
  | String _ s' => contains x s'
  end.

(** [any(x in name for x in xs)] *)
Definition any_in (xs : list string) (name : string) : bool :=
  existsb (λ x, contains x name) xs.

(** ** Numbers *)

(** A float64 scalar: a finite value, an infinity, or NaN. *)
Inductive float : Type :=
  | Fin (q : Qc)
  | PInf
  | NInf
  | NaN.


(** The values of a float column that holds no infinity: [None] is NaN. *)
Abbreviation na_float := (option Qc).

(** [a + b] on such values: NaN propagates. *)
Definition na_add (a b : na_float) : na_float :=
  match a, b with
  | Some x, Some y => Some (x + y)
  | _, _ => None
  end.

(** True division [a / b] as numpy does it on arrays: a zero divisor gives
    an infinity of the dividend's sign, 0/0 gives NaN, NaN propagates;
    nothing is raised. *)
Definition fdiv (a b : na_float) : float :=
  match a, b with
  | Some x, Some y =>
      match y ?= 0 with
      | Eq => match x ?= 0 with Eq => NaN | Gt => PInf | Lt => NInf end
      | _ => Fin (x / y)
      end
  | _, _ => NaN
  end.

(** [x * k] for a float [x] and a finite [k]. *)
Definition fmul (x : float) (k : Qc) : float :=
  match x with
  | Fin q => Fin (q * k)
  | PInf => match k ?= 0 with Gt => PInf | Lt => NInf | Eq => NaN end
  | NInf => match k ?= 0 with Gt => NInf | Lt => PInf | Eq => NaN end
  | NaN => NaN
  end.

(** [.replace([np.inf, -np.inf], 0)] on one value: no infinity is left. *)
Definition replace_inf (x : float) : na_float :=
  match x with
  | Fin q => Some q
  | PInf | NInf => Some 0
  | NaN => None
  end.

(** [.fillna(v)] on one value: no NaN is left. *)
Definition fillna (v : Qc) (x : na_float) : Qc :=
  match x with Some q => q | None => v end.

(** ** Cells, rows, tables *)

Inductive cell : Type :=
  | CStr (s : string)     (* text (a Python [str]) *)
  | CNum (q : Qc)         (* a number *)
  | CNaN.                 (* missing *)

Global Instance cell_eq_dec : EqDecision cell.
Proof. solve_decision. Defined.

Global Instance cell_inhabited : Inhabited cell := populate CNaN.

(** The value a cell of a numeric column holds; text holds none. *)
Definition cell_float (c : cell) : na_float :=
  match c with
  | CNum q => Some q
  | _ => None
  end.

Definition float_cell (x : na_float) : cell :=
  match x with Some q => CNum q | None => CNaN end.

Record DataFrame : Type := {
  columns : list string;
  rows : list (gmap string cell)
}.

(** [pd.DataFrame()] *)
Definition empty_frame : DataFrame := {| columns := []; rows := [] |}.

(** [df.empty]: some axis has length 0. *)
Definition empty (df : DataFrame) : bool :=
  match columns df, rows df with
  | _ :: _, _ :: _ => false
  | _, _ => true
  end.

(** [df[col] = f(row)], row by row: an existing column is overwritten in
    place, a new one is appended to the header. *)
Definition assign (col : string) (f : gmap string cell → cell)
    (df : DataFrame) : DataFrame :=
  {| columns := if bool_decide (col ∈ columns df) then columns df
                else columns df ++ [col];
     rows := (λ r, <[col := f r]> r) <$> rows df |}.

(** Streamlit calls the pipeline makes. *)
Inductive st_call : Type :=
  | st_error (msg : string).

(** ** [process_data] *)

Definition required_cols : list string :=
  [ "NIC_Name"; "Main_Workers_Total_Persons"; "Marginal_Workers_Total_Persons";
    "Main_Workers_Total_Females"; "Marginal_Workers_Total_Females";
    "Main_Workers_Urban_Persons"; "Marginal_Workers_Urban_Persons";
    "Main_Workers_Rural_Persons"; "Marginal_Workers_Rural_Persons";
    "Main_Workers_Total_Males"; "Marginal_Workers_Total_Males" ].

(** [required_cols[1:]] *)
Definition numeric_cols : list string := drop 1 required_cols.

Definition derived_cols : list string :=
  [ "Total Workers"; "Female Ratio"; "Urban Ratio"; "Industry Category" ].

Definition classify_industry (name : cell) : string :=
  match name with
  | CStr s =>
      let name := lower s in
      if any_in ["crop"; "animal"; "farm"; "agriculture"] name then "Agriculture"
      else if any_in ["manufactur"; "factory"; "production"] name then "Manufacturing"
      else if any_in ["retail"; "trade"; "shop"] name then "Retail & Trade"
      else if any_in ["poultry"; "cattle"; "livestock"] name then "Poultry & Livestock"
      else if any_in ["mining"; "quarry"; "coal"] name then "Mining"
      else "Other"
  | _ => "Other"
  end.

Section Pipeline.

(** pandas' parser of a number written as text; [None] when the text is not
    a number. *)
Variable parse_float : string → option Qc.

(** [pd.to_numeric(_, errors='coerce')] on one cell. *)
Definition to_numeric (c : cell) : na_float :=
  match c with
  | CNum q => Some q
  | CNaN => None
  | CStr s => parse_float s
  end.

(** Line 51 for one column. *)
Definition coerce (col : string) : DataFrame → DataFrame :=
  assign col (λ r, CNum (fillna 0 (to_numeric (r !!! col)))).

(** [df[a] + df[b]] and [(df[a] + df[b]) / df[c]] in one row. *)
Definition plus (a b : string) (r : gmap string cell) : na_float :=
  na_add (cell_float (r !!! a)) (cell_float (r !!! b)).

Definition ratio (a b c : string) (r : gmap string cell) : float :=
  fdiv (plus a b r) (cell_float (r !!! c)).

(** Lines 50-69.  The quotient line 54 (55) stores in a column, which may be
    infinite or NaN, stays there only until line 56 (57) rewrites the
    column and is read by nothing else, so each pair of lines is one
    assignment here. *)
Definition transform (df : DataFrame) : DataFrame :=
  let df := foldl (λ df col, coerce col df) df numeric_cols in
  let df := assign "Total Workers"
      (λ r, float_cell (plus "Main_Workers_Total_Persons"
                             "Marginal_Workers_Total_Persons" r)) df in
  let df := assign "Female Ratio"
      (λ r, CNum (fillna 0 (replace_inf
         (ratio "Main_Workers_Total_Females" "Marginal_Workers_Total_Females"
                "Total Workers" r)))) df in
  let df := assign "Urban Ratio"
      (λ r, CNum (fillna 0 (replace_inf
         (ratio "Main_Workers_Urban_Persons" "Marginal_Workers_Urban_Persons"
                "Total Workers" r)))) df in
  assign "Industry Category" (λ r, CStr (classify_industry (r !!! "NIC_Name"))) df.

(** [missing = [col for col in required_cols if col not in df.columns]] *)
Definition missing_cols (df : DataFrame) : list string :=
  filter (λ col, col ∉ columns df) required_cols.

Definition process_data (df : DataFrame) : DataFrame * list st_call :=
  let missing := missing_cols df in
  match missing with
  | _ :: _ =>
      (empty_frame, [st_error ("Missing columns: " +:+ String.concat ", " missing)])
  | [] => (transform df, [])
  end.

End Pipeline.

(** ** [generate_insights] *)

(** What a call can raise.  [Unsupported col] marks the boundary of the
    model: column [col] holds a cell of another kind than [process_data]
    puts there (text or a missing value where a number is read, a non-text
    group key); what pandas does with such a column is not modelled. *)
Inductive exn : Type :=
  | KeyError (col : string)     (* the frame has no column [col] *)
  | ValueError                  (* argmax of an empty sequence *)
  | Unsupported (col : string).

Inductive result (A : Type) : Type :=
  | Ok (a : A)
  | Raise (e : exn).
Arguments Ok {A} a.
Arguments Raise {A} e.

Global Instance result_ret : MRet result := λ A a, Ok a.
Global Instance result_bind : MBind result := λ A B f m,
  match m with Ok a => f a | Raise e => Raise e end.
Global Instance result_fmap : FMap result := λ A B f m,
  match m with Ok a => Ok (f a) | Raise e => Raise e end.

(** [df[col]] *)
Definition column (col : string) (df : DataFrame) : result (list cell) :=
  if bool_decide (col ∈ columns df) then Ok ((.!!! col) <$> rows df)
  else Raise (KeyError col).

(** [df[col]] as a float column. *)
Definition floats (col : string) (df : DataFrame) : result (list Qc) :=
  cs ← column col df;
  mapM (λ c, match c with CNum q => Ok q | _ => Raise (Unsupported col) end) cs.

(** [df[col]] as a column of text labels. *)
Definition labels (col : string) (df : DataFrame) : result (list string) :=
  cs ← column col df;
  mapM (λ c, match c with CStr s => Ok s | _ => Raise (Unsupported col) end) cs.

Record DataFrameGroupBy : Type := {
  obj : DataFrame;                          (* the grouped frame *)
  groups : list (string * DataFrame)        (* key, member rows *)
}.

(** [df.groupby(key)]: one sub-frame per distinct key, the keys in ascending
    order ([sort=True] is the default), the member rows in table order. *)
Definition groupby (key : string) (df : DataFrame) : result DataFrameGroupBy :=
  keys ← labels key df;
  Ok {| obj := df;
        groups := (λ k, (k, {| columns := columns df;
                               rows := filter (λ r, r !!! key = CStr k) (rows df) |}))
                  <$> merge_sort String.le (remove_dups keys) |}.

(** [grouped[col].agg(f)]: a Series indexed by group key. *)
Definition agg (f : list Qc → Qc) (col : string) (grouped : DataFrameGroupBy)
    : result (list (string * Qc)) :=
  _ ← column col (obj grouped);
  mapM (λ g, v ← floats col g.2; Ok (g.1, f v)) (groups grouped).

(** [.sum()] *)
Definition series_sum (l : list Qc) : Qc := foldr Qcplus 0 l.

(** [.mean()] of the values of a group; a group has at least one row. *)
Definition series_mean (l : list Qc) : Qc :=
  series_sum l / Qc_of_Z (Z.of_nat (length l)).

(** [.max()]: NaN for an empty Series. *)
Definition series_max (l : list Qc) : na_float :=
  match l with
  | [] => None
  | x :: l' => Some (foldl (λ m y, if decide (m < y) then y else m) x l')
  end.

(** [.idxmax()]: the label of the first occurrence of the maximum. *)
Fixpoint idxmax_from (best : string * Qc) (s : list (string * Qc)) : string :=
  match s with
  | [] => best.1
  | kv :: s' => if decide (best.2 < kv.2) then idxmax_from kv s'
                else idxmax_from best s'
  end.

Definition idxmax (s : list (string * Qc)) : result string :=
  match s with
  | [] => Raise ValueError
  | kv :: s' => Ok (idxmax_from kv s')
  end.

(** One row of [industry_stats]. *)
Record IndustryAggregate : Type := {
  category : string;
  total_workers : Qc;
  female_ratio : Qc;
  urban_ratio : Qc;
  growth_score : Qc
}.

(** Lines 85-88: the aggregate per category and its Growth Score. *)
Definition industry_stats (df : DataFrame) : result (list IndustryAggregate) :=
  grouped ← groupby "Industry Category" df;
  tw ← agg series_sum "Total Workers" grouped;
  fr ← agg series_mean "Female Ratio" grouped;
  ur ← agg series_mean "Urban Ratio" grouped;
  Ok (zip_with (λ t fu,
        {| category := t.1; total_workers := t.2;
           female_ratio := fu.1.2; urban_ratio := fu.2.2;
           growth_score := fu.2.2 * Q2Qc (4 # 10) + fu.1.2 * Q2Qc (6 # 10) |})
      tw (zip fr ur)).

Record Insights : Type := {
  top_industry : string;
  top_share : float;
  female_percent : float;
  marginal_percent : float;
  growth_industry : string
}.

Definition generate_insights (df : DataFrame) : result Insights :=
  grouped ← groupby "Industry Category" df;
  industry_share ← agg series_sum "Total Workers" grouped;
  let total := series_sum industry_share.*2 in
  top ← idxmax industry_share;
  let share := fmul (fdiv (series_max industry_share.*2) (Some total)) (Qc_of_Z 100) in
  main_f ← floats "Main_Workers_Total_Females" df;
  marg_f ← floats "Marginal_Workers_Total_Females" df;
  let female_total := series_sum (zip_with Qcplus main_f marg_f) in
  workers ← floats "Total Workers" df;
  let female := fmul (fdiv (Some female_total) (Some (series_sum workers))) (Qc_of_Z 100) in
  marg_p ← floats "Marginal_Workers_Total_Persons" df;
  let marginal_total := series_sum marg_p in
  let marginal := fmul (fdiv (Some marginal_total) (Some (series_sum workers))) (Qc_of_Z 100) in
  stats ← industry_stats df;
  growth ← idxmax ((λ a, (category a, growth_score a)) <$> stats);
  Ok {| top_industry := top; top_share := share; female_percent := female;
        marginal_percent := marginal; growth_industry := growth |}.

(** The part of [main] that asks for the insights: an empty frame gets the
    upload hint and no insights are requested. *)
Definition main (df : DataFrame) : option (result Insights) :=
  if empty df then None else Some (generate_insights df).

(** Lines 135-138 of [main]: the three sidebar metrics. *)

(** [.nunique()]: the number of distinct values, missing ones left out. *)
Definition nunique (cs : list cell) : nat :=
  length (remove_dups (filter (λ c, c ≠ CNaN) cs)).

Definition sidebar_summary (df : DataFrame) : result (Qc * nat * nat) :=
  workers ← floats "Total Workers" df;
  names ← column "NIC_Name" df;
  cats ← column "Industry Category" df;
  Ok (series_sum workers, nunique names, nunique cats).

(** ** The data of the charts

    Each plot function is modelled up to the call that hands its data to
    plotly; the value returned here is that data. *)




(** [plot_growth_potential]: the frame [top_growth] whose index and ratio
    columns make the two bar traces.  [nlargest] stands for
    [.nlargest(n, 'Growth Score')]. *)
Definition plot_growth_potential
    (nlargest : nat → list IndustryAggregate → list IndustryAggregate)
    (df : DataFrame) : result (list IndustryAggregate) :=
  stats ← industry_stats df;
  Ok (nlargest 8 stats).

(** ** Machine numbers

    The columns the pipeline computes with hold 64-bit integers (int64)
    or doubles (float64).  The definitions above compute in exact
    rationals; the ones below take the arithmetic as a parameter, and give
    the arithmetic of int64 and of doubles as instances of it. *)

(** numpy's int64: a result is taken modulo 2^64 into -2^63 .. 2^63 - 1,
    without a signal. *)
Definition int64_wrap (z : Z) : Z := ((z + 2 ^ 63) mod 2 ^ 64 - 2 ^ 63)%Z.

Definition wrap64 (q : Qc) : Qc := Qc_of_Z (int64_wrap (Qfloor q)).

(** [num / den], for [den > 0], rounded to the nearest integer, a tie to
    the even one. *)
Definition round_half_even (num den : Z) : Z :=
  let q := (num / den)%Z in
  match (2 * (num mod den) ?= den)%Z with
  | Lt => q
  | Gt => (q + 1)%Z
  | Eq => if Z.even q then q else (q + 1)%Z
  end.

(** The integer part of the binary logarithm of [n / d], for positive [n]
    and [d]. *)
Definition binade (n d : Z) : Z :=
  let e := (Z.log2 n - Z.log2 d)%Z in
  if (n * 2 ^ Z.max 0 (- e) <? d * 2 ^ Z.max 0 e)%Z then (e - 1)%Z else e.

(** The double (IEEE 754 binary64) nearest to a rational, a tie to the one
    with an even significand: 53 significant bits, least exponent -1074.
    The double is given by its value; the two zeros are not told apart and
    overflow, beyond about 1.8e308, is not modelled. *)
Definition round64 (q : Qc) : Qc :=
  let n := Z.abs (Qnum q) in
  let d := Z.pos (Qden q) in
  if (n =? 0)%Z then 0
  else
    let shift := Z.max (binade n d - 52) (-1074) in
    let m := round_half_even (n * 2 ^ Z.max 0 (- shift)) (d * 2 ^ Z.max 0 shift) in
    Q2Qc (inject_Z (Z.sgn (Qnum q) * m) * 2 ^ shift).

(** Doubles added one after the other, as a plain loop does. *)
Definition naive_sum (l : list Qc) : Qc :=
  foldl (λ s x, round64 (s + x)) 0 l.

(** Doubles added with Kahan's compensation, the loop of pandas' group
    sum and group mean: [y = x - c; t = s + y; c = (t - s) - y; s = t]. *)
Definition kahan_sum (l : list Qc) : Qc :=
  (foldl (λ sc x,
      let y := round64 (x - sc.2) in
      let t := round64 (sc.1 + y) in
      (t, round64 (round64 (t - sc.1) - y)))
    (0, 0) l).1.

(** What the aggregation takes from the dtype of its columns. *)
Record arithmetic : Type := {
  rnd : Qc → Qc;               (* the double a real result is rounded to *)
  add_counts : Qc → Qc → Qc;   (* [+] of two count columns, in one row *)
  sum_group : list Qc → Qc;    (* [.sum()] of a group of a count column *)
  sum_series : list Qc → Qc;   (* [.sum()] of a Series of counts *)
  sum_ratios : list Qc → Qc    (* the sum [.mean()] forms of a group of ratios *)
}.

(** [.mean()] of a group of a ratio column: the sum of the member values,
    divided by their number. *)
Definition group_mean (A : arithmetic) (l : list Qc) : Qc :=
  rnd A (sum_ratios A l / Qc_of_Z (Z.of_nat (length l))).

(** The arithmetic of the definitions above. *)
Definition exact : arithmetic :=
  {| rnd := λ q, q;
     add_counts := Qcplus;
     sum_group := series_sum;
     sum_series := series_sum;
     sum_ratios := series_sum |}.

(** The loop that adds up a column of doubles.  pandas' group sum and
    group mean compensate; numpy's [.sum()] of a Series of fewer than eight
    values is the plain loop (longer Series are added in blocks, which is
    not modelled). *)
Inductive summation : Type :=
  | Plain
  | Compensated.

Definition float_sum (how : summation) (l : list Qc) : Qc :=
  match how with
  | Plain => naive_sum l
  | Compensated => kahan_sum l
  end.

(** float64 count columns: every operation rounds to the nearest double. *)
Definition doubles (group series : summation) : arithmetic :=
  {| rnd := round64;
     add_counts := λ x y, round64 (x + y);
     sum_group := float_sum group;
     sum_series := float_sum series;
     sum_ratios := float_sum group |}.

(** int64 count columns: sums wrap around; the ratio columns are float64. *)
Definition int64_counts (group : summation) : arithmetic :=
  {| rnd := round64;
     add_counts := λ x y, wrap64 (x + y);
     sum_group := λ l, wrap64 (series_sum l);
     sum_series := λ l, wrap64 (series_sum l);
     sum_ratios := float_sum group |}.

Section Machine.

Variable A : arithmetic.
Variable parse_float : string → option Qc.

(** [a + b] of two count columns in one row. *)
Definition na_add_with (a b : na_float) : na_float :=
  match a, b with
  | Some x, Some y => Some (add_counts A x y)
  | _, _ => None
  end.

(** True division: numpy converts both operands to doubles and the
    quotient is a double; a zero divisor gives an infinity or NaN. *)
Definition fdiv_with (a b : na_float) : float :=
  match a, b with
  | Some x, Some y =>
      match y ?= 0 with
      | Eq => match x ?= 0 with Eq => NaN | Gt => PInf | Lt => NInf end
      | _ => Fin (rnd A (rnd A x / rnd A y))
      end
  | _, _ => NaN
  end.

Definition fmul_with (x : float) (k : Qc) : float :=
  match x with
  | Fin q => Fin (rnd A (q * k))
  | PInf => match k ?= 0 with Gt => PInf | Lt => NInf | Eq => NaN end
  | NInf => match k ?= 0 with Gt => NInf | Lt => PInf | Eq => NaN end
  | NaN => NaN
  end.

Definition plus_with (a b : string) (r : gmap string cell) : na_float :=
  na_add_with (cell_float (r !!! a)) (cell_float (r !!! b)).

Definition ratio_with (a b c : string) (r : gmap string cell) : float :=
  fdiv_with (plus_with a b r) (cell_float (r !!! c)).

(** Lines 50-69, as [transform]. *)
Definition transform_with (df : DataFrame) : DataFrame :=
  let df := foldl (λ df col, coerce parse_float col df) df numeric_cols in
  let df := assign "Total Workers"
      (λ r, float_cell (plus_with "Main_Workers_Total_Persons"
                                  "Marginal_Workers_Total_Persons" r)) df in
  let df := assign "Female Ratio"
      (λ r, CNum (fillna 0 (replace_inf
         (ratio_with "Main_Workers_Total_Females" "Marginal_Workers_Total_Females"
                     "Total Workers" r)))) df in
  let df := assign "Urban Ratio"
      (λ r, CNum (fillna 0 (replace_inf
         (ratio_with "Main_Workers_Urban_Persons" "Marginal_Workers_Urban_Persons"
                     "Total Workers" r)))) df in
  assign "Industry Category" (λ r, CStr (classify_industry (r !!! "NIC_Name"))) df.

Definition process_data_with (df : DataFrame) : DataFrame * list st_call :=
  let missing := missing_cols df in
  match missing with
  | _ :: _ =>
      (empty_frame, [st_error ("Missing columns: " +:+ String.concat ", " missing)])
  | [] => (transform_with df, [])
  end.

(** Lines 85-88, as [industry_stats]; 0.4 and 0.6 are the doubles the
    literals denote. *)
Definition industry_stats_with (df : DataFrame) : result (list IndustryAggregate) :=
  grouped ← groupby "Industry Category" df;
  tw ← agg (sum_group A) "Total Workers" grouped;
  fr ← agg (group_mean A) "Female Ratio" grouped;
  ur ← agg (group_mean A) "Urban Ratio" grouped;
  Ok (zip_with (λ t fu,
        {| category := t.1; total_workers := t.2;
           female_ratio := fu.1.2; urban_ratio := fu.2.2;
           growth_score := rnd A (rnd A (fu.2.2 * rnd A (Q2Qc (4 # 10)))
                                  + rnd A (fu.1.2 * rnd A (Q2Qc (6 # 10)))) |})
      tw (zip fr ur)).

(** Lines 72-91, as [generate_insights]. *)
Definition generate_insights_with (df : DataFrame) : result Insights :=
  grouped ← groupby "Industry Category" df;
  industry_share ← agg (sum_group A) "Total Workers" grouped;
  let total := sum_series A industry_share.*2 in
  top ← idxmax industry_share;
  let share :=
    fmul_with (fdiv_with (series_max industry_share.*2) (Some total)) (Qc_of_Z 100) in
  main_f ← floats "Main_Workers_Total_Females" df;
  marg_f ← floats "Marginal_Workers_Total_Females" df;
  let female_total := sum_series A (zip_with (add_counts A) main_f marg_f) in
  workers ← floats "Total Workers" df;
  let female :=
    fmul_with (fdiv_with (Some female_total) (Some (sum_series A workers)))
              (Qc_of_Z 100) in
  marg_p ← floats "Marginal_Workers_Total_Persons" df;
  let marginal_total := sum_series A marg_p in
  let marginal :=
    fmul_with (fdiv_with (Some marginal_total) (Some (sum_series A workers)))
              (Qc_of_Z 100) in
  stats ← industry_stats_with df;
  growth ← idxmax ((λ a, (category a, growth_score a)) <$> stats);
  Ok {| top_industry := top; top_share := share; female_percent := female;
        marginal_percent := marginal; growth_industry := growth |}.

End Machine.

(** ** Definitions used to state the properties *)

(** The six category labels of the data model. *)
Definition industry_labels : list string :=
  [ "Agriculture"; "Manufacturing"; "Retail & Trade"; "Poultry & Livestock";
    "Mining"; "Other" ].



(** The coerced value of column [col] in row [r]: line 51 on one cell. *)
Definition coerced (parse_float : string → option Qc) (col : string)
    (r : gmap string cell) : Qc :=
  fillna 0 (to_numeric parse_float (r !!! col)).

(** [transform] seen from one row (see [transform_rows]). *)
Definition coerce_row (parse_float : string → option Qc)
    (r : gmap string cell) : gmap string cell :=
  foldl (λ r col, <[col := CNum (coerced parse_float col r)]> r) r numeric_cols.

Definition transform_row (parse_float : string → option Qc)
    (r : gmap string cell) : gmap string cell :=
  let r := coerce_row parse_float r in
  let r := <["Total Workers" :=
      float_cell (plus "Main_Workers_Total_Persons"
                       "Marginal_Workers_Total_Persons" r)]> r in
  let r := <["Female Ratio" := CNum (fillna 0 (replace_inf
      (ratio "Main_Workers_Total_Females" "Marginal_Workers_Total_Females"
             "Total Workers" r)))]> r in
  let r := <["Urban Ratio" := CNum (fillna 0 (replace_inf
      (ratio "Main_Workers_Urban_Persons" "Marginal_Workers_Urban_Persons"
             "Total Workers" r)))]> r in
  <["Industry Category" := CStr (classify_industry (r !!! "NIC_Name"))]> r.

(** The three derived numbers of a row, from its coerced counts. *)
Definition row_total (parse_float : string → option Qc)
    (r : gmap string cell) : Qc :=
  coerced parse_float "Main_Workers_Total_Persons" r
  + coerced parse_float "Marginal_Workers_Total_Persons" r.

Definition row_female_quotient (parse_float : string → option Qc)
    (r : gmap string cell) : float :=
  fdiv (Some (coerced parse_float "Main_Workers_Total_Females" r
              + coerced parse_float "Marginal_Workers_Total_Females" r))
       (Some (row_total parse_float r)).

Definition row_urban_quotient (parse_float : string → option Qc)
    (r : gmap string cell) : float :=
  fdiv (Some (coerced parse_float "Main_Workers_Urban_Persons" r
              + coerced parse_float "Marginal_Workers_Urban_Persons" r))
       (Some (row_total parse_float r)).

(** The frame [df] with its rows replaced. *)
Definition with_rows (df : DataFrame) (rws : list (gmap string cell)) : DataFrame :=
  {| columns := columns df; rows := rws |}.

(** The number in column [col] and the category label of a row of a derived
    table. *)
Definition num (col : string) (r : gmap string cell) : Qc :=
  match r !!! col with CNum q => q | _ => 0 end.

Definition label (r : gmap string cell) : string :=
  match r !!! "Industry Category" with CStr s => s | _ => "" end.

(** The columns [generate_insights] reads as numbers. *)
Definition read_cols : list string :=
  [ "Total Workers"; "Main_Workers_Total_Females";
    "Marginal_Workers_Total_Females"; "Marginal_Workers_Total_Persons";
    "Female Ratio"; "Urban Ratio" ].

(** A row, and a frame, typed as [process_data] leaves them. *)
Definition derived_row (r : gmap string cell) : Prop :=
  (∃ s, r !!! "Industry Category" = CStr s)
  ∧ ∀ col, col ∈ read_cols → ∃ q, r !!! col = CNum q.

Definition derived_frame (df : DataFrame) : Prop :=
  "Industry Category" ∈ columns df
  ∧ (∀ col, col ∈ read_cols → col ∈ columns df)
  ∧ Forall derived_row (rows df).

(** The member rows of category [k], and the aggregates over them as the
    specification defines them. *)
Definition members (df : DataFrame) (k : string) : list (gmap string cell) :=
  filter (λ r, label r = k) (rows df).

Definition category_total (df : DataFrame) (k : string) : Qc :=
  series_sum (num "Total Workers" <$> members df k).

Definition category_mean (col : string) (df : DataFrame) (k : string) : Qc :=
  series_sum (num col <$> members df k)
  / Qc_of_Z (Z.of_nat (length (members df k))).

Definition category_growth (df : DataFrame) (k : string) : Qc :=
  Q2Qc (4 # 10) * category_mean "Urban Ratio" df k
  + Q2Qc (6 # 10) * category_mean "Female Ratio" df k.

(** The categories present, in ascending order. *)
Definition categories (df : DataFrame) : list string :=
  merge_sort String.le (remove_dups (label <$> rows df)).

(** The grand total of Total Workers over all rows. *)
Definition grand_total (df : DataFrame) : Qc :=
  series_sum (num "Total Workers" <$> rows df).

(** The order of the required columns as the data model lists them: the ten
    numeric columns, then NIC_Name. *)
Definition spec_numeric_order : list string :=
  [ "Main_Workers_Total_Persons"; "Marginal_Workers_Total_Persons";
    "Main_Workers_Total_Females"; "Marginal_Workers_Total_Females";
    "Main_Workers_Urban_Persons"; "Marginal_Workers_Urban_Persons";
    "Main_Workers_Rural_Persons"; "Marginal_Workers_Rural_Persons";
    "Main_Workers_Total_Males"; "Marginal_Workers_Total_Males" ].

Definition spec_required_order : list string :=
  spec_numeric_order ++ ["NIC_Name"].

(** The missing list in that order. *)
Definition spec_missing_cols (df : DataFrame) : list string :=
  filter (λ col, col ∉ columns df) spec_required_order.

(** ** Example inputs *)

(** A parser for the examples: unsigned decimal integers. *)
Fixpoint digits_value (s : string) (acc : Z) : option Z :=
  match s with
  | EmptyString => Some acc
  | String c s' =>
      let n := N_of_ascii c in
      if ((48 <=? n) && (n <=? 57))%N
      then digits_value s' (10 * acc + Z.of_N (n - 48))
      else None
  end.

Definition parse_decimal (s : string) : option Qc :=
  match s with
  | EmptyString => None
  | _ => Qc_of_Z <$> digits_value s 0
  end.

(** A census row: the given cells, and 0 in every other numeric column. *)
Definition census_row (name : cell) (cells : list (string * cell))
    : gmap string cell :=
  list_to_map (("NIC_Name", name) :: cells ++ ((λ col, (col, CNum 0)) <$> numeric_cols)).

(** The three-row table of the specification's example. *)
Definition crop_row : gmap string cell :=
  census_row (CStr "Crop Farming")
    [("Main_Workers_Total_Persons", CNum (Qc_of_Z 100))].

Definition example_table : DataFrame :=
  {| columns := required_cols;
     rows := [ crop_row;
               census_row (CStr "Retail Shop Co")
                 [("Main_Workers_Total_Persons", CNum (Qc_of_Z 50))];
               census_row (CStr "Steel Manufacturing Ltd")
                 [("Main_Workers_Total_Persons", CNum (Qc_of_Z 200))] ] |}.


(** A validated table whose file already has a column Total Workers, and
    unparsable text in a numeric column. *)
Definition clashing_table : DataFrame :=
  {| columns := required_cols ++ ["Total Workers"];
     rows := [ census_row (CStr "Crop Farming")
                 [("Main_Workers_Total_Persons", CNum (Qc_of_Z 7));
                  ("Marginal_Workers_Total_Persons", CStr "unknown");
                  ("Total Workers", CStr "seven")] ] |}.

(** Two Agriculture rows with Female Ratio 0 and 1. *)
Definition women_row : gmap string cell :=
  census_row (CStr "Animal Husbandry")
    [("Main_Workers_Total_Persons", CNum (Qc_of_Z 10));
     ("Main_Workers_Total_Females", CNum (Qc_of_Z 10))].

Definition ratio_table : DataFrame :=
  {| columns := required_cols;
     rows := [ census_row (CStr "Crop Farming")
                 [("Main_Workers_Total_Persons", CNum (Qc_of_Z 10))];
               women_row ] |}.



(** ** Definitions used to state where exact arithmetic is the machine's *)





Definition magnitude (q : Qc) : Qc := if decide (q < 0) then - q else q.

Definition is_integer (q : Qc) : bool := (Qden q =? 1)%positive.

(** A count that int64 and doubles both hold, with room for the sum of
    two: a whole number of magnitude at most 2^52. *)
Definition is_count (q : Qc) : bool :=
  is_integer q && bool_decide (magnitude q ≤ Qc_of_Z (2 ^ 52)).







(** An arithmetic that adds two counts without error, and one whose
    rounding gives no negative double for a non-negative number, as int64
    and doubles do. *)
Definition exact_add (A : arithmetic) : Prop :=
  ∀ x y, is_count x = true → is_count y = true → add_counts A x y = x + y.

Definition rnd_keeps_sign (A : arithmetic) : Prop :=
  ∀ x, 0 ≤ x → 0 ≤ rnd A x.

(** An arithmetic that adds such whole numbers without error, as int64 and
    doubles do. *)
Definition exact_sums (A : arithmetic) : Prop :=
  ∀ l, Forall (λ x, is_integer x = true) l →
       series_sum (magnitude <$> l) ≤ Qc_of_Z (2 ^ 53) →
       sum_group A l = series_sum l ∧ sum_series A l = series_sum l.







(** ** Further example inputs *)





(** Two categories whose Growth Scores are both 3/5 in exact arithmetic:
    Agriculture with ratios 0 (urban) and 1 (female), Manufacturing with
    3/4 and 1/2. *)
Definition rounding_table : DataFrame :=
  {| columns := required_cols;
     rows := [ census_row (CStr "Crop Farming")
                 [("Main_Workers_Total_Persons", CNum (Qc_of_Z 1));
                  ("Main_Workers_Total_Females", CNum (Qc_of_Z 1))];
               census_row (CStr "Steel Manufacturing")
                 [("Main_Workers_Total_Persons", CNum (Qc_of_Z 4));
                  ("Main_Workers_Total_Females", CNum (Qc_of_Z 2));
                  ("Main_Workers_Urban_Persons", CNum (Qc_of_Z 3))] ] |}.


(** ** Definitions used to state the further properties *)

(** The place of a label in the priority order of the classification:
    Agriculture 0, ..., Mining 4, Other 5. *)
Definition priority (label : string) : nat :=
  if decide (label = "Agriculture") then 0
  else if decide (label = "Manufacturing") then 1
  else if decide (label = "Retail & Trade") then 2
  else if decide (label = "Poultry & Livestock") then 3
  else if decide (label = "Mining") then 4
  else 5.


Definition selects_largest
    (nlargest : nat → list IndustryAggregate → list IndustryAggregate) : Prop :=
  ∀ n l, ∃ l', l' ≡ₚ l
               ∧ Sorted (λ a b, growth_score b ≤ growth_score a) l'
               ∧ nlargest n l = take n l'.


Definition merge_nlargest (n : nat) (l : list IndustryAggregate)
    : list IndustryAggregate :=
  take n (@merge_sort _ (λ a b, growth_score b ≤ growth_score a)
            (λ a b, decide (growth_score b ≤ growth_score a)) l).

(** * Properties *)

(** ** Text *)





Lemma prefix_spec x s :
  String.prefix x s = true ↔ ∃ post, s = x +:+ post.
Proof.
  revert s. induction x as [|a x IH]; intros s.
  - destruct s; simpl; split; eauto.
  - destruct s as [|b s]; simpl.
    + split; [done | by intros [? ?]].
    + destruct (Ascii.ascii_dec a b) as [->|Hne].
      * rewrite IH. split.
        -- intros [post ->]. by exists post.
        -- intros [post Heq]. exists post. by injection Heq.
      * split; [done | intros [? Heq]; injection Heq; congruence].
Qed.

(** [contains x s] holds exactly when [s] is [pre ++ x ++ post]. *)
Lemma contains_spec x s :
  contains x s = true ↔ ∃ pre post, s = pre +:+ x +:+ post.
Proof.
  induction s as [|b s IH]; cbn [contains].
  - rewrite orb_false_r, prefix_spec. split.
    + intros [post ->]. by exists "", post.
    + intros [pre [post Heq]]. destruct pre; [by exists post|done].
  - rewrite orb_true_iff, prefix_spec, IH. split.
    + intros [[post ->] | (pre & post & ->)].
      * by exists "", post.
      * by exists (String b pre), post.
    + intros ([|c pre] & post & Heq).
      * left. by exists post.
      * right. injection Heq as -> ->. by exists pre, post.
Qed.

(** ** Classification *)


Lemma classify_label name : classify_industry name ∈ industry_labels.
Proof.
  unfold industry_labels.
  destruct name as [s| |]; simpl; [|set_solver..].
  repeat (match goal with |- context [if ?b then _ else _] => destruct b end);
    set_solver.
Qed.

(** ** The transformer, row by row *)

Ltac map_simpl :=
  repeat first
    [ rewrite lookup_insert_eq
    | rewrite lookup_total_insert_eq
    | rewrite lookup_insert_ne by compute_done
    | rewrite lookup_total_insert_ne by compute_done ].

Lemma foldl_assign_rows (f : string → gmap string cell → cell) cols df :
  rows (foldl (λ df col, assign col (f col) df) df cols)
  = (λ r, foldl (λ r col, <[col := f col r]> r) r cols) <$> rows df.
Proof.
  revert df. induction cols as [|c cols IH]; intros df; simpl.
  - by rewrite list_fmap_id.
  - rewrite IH. simpl. by rewrite <-list_fmap_compose.
Qed.

Lemma transform_rows parse_float df :
  rows (transform parse_float df) = transform_row parse_float <$> rows df.
Proof.
  unfold transform, coerce. cbn [rows assign].
  rewrite (foldl_assign_rows
    (λ col r, CNum (fillna 0 (to_numeric parse_float (r !!! col))))).
  by rewrite <-!list_fmap_compose.
Qed.

Lemma foldl_coerce_other parse_float cols r col :
  col ∉ cols →
  foldl (λ r col, <[col := CNum (coerced parse_float col r)]> r) r cols !! col
  = r !! col.
Proof.
  revert r. induction cols as [|c cols IH]; intros r Hc; [done|].
  apply not_elem_of_cons in Hc as [Hne Hc]. cbn [foldl].
  rewrite IH by done. by apply lookup_insert_ne.
Qed.

Lemma coerce_row_other parse_float r col :
  col ∉ numeric_cols → coerce_row parse_float r !! col = r !! col.
Proof. apply foldl_coerce_other. Qed.

Lemma coerce_row_numeric parse_float r col :
  col ∈ numeric_cols →
  coerce_row parse_float r !! col = Some (CNum (coerced parse_float col r)).
Proof.
  assert (NoDup numeric_cols) as Hnd by compute_done.
  unfold coerce_row. revert r Hnd.
  induction numeric_cols as [|c cols IH]; intros r Hnd Hin.
  - by apply elem_of_nil in Hin.
  - apply NoDup_cons in Hnd as [Hc Hnd]. cbn [foldl].
    destruct (decide (col = c)) as [->|Hne].
    + rewrite foldl_coerce_other by done. apply lookup_insert_eq.
    + apply elem_of_cons in Hin as [?|Hin]; [done|].
      rewrite IH by done. unfold coerced.
      by rewrite lookup_total_insert_ne.
Qed.

Lemma coerce_row_numeric_total parse_float r col :
  col ∈ numeric_cols →
  coerce_row parse_float r !!! col = CNum (coerced parse_float col r).
Proof.
  intros Hin. rewrite lookup_total_alt.
  by rewrite coerce_row_numeric.
Qed.

Lemma coerce_row_other_total parse_float r col :
  col ∉ numeric_cols → coerce_row parse_float r !!! col = r !!! col.
Proof.
  intros Hnin. rewrite !lookup_total_alt. by rewrite coerce_row_other.
Qed.

Lemma numeric_not_derived col : col ∈ numeric_cols → col ∉ derived_cols.
Proof.
  revert col. apply Forall_forall. compute_done.
Qed.

Lemma not_derived_ne col :
  col ∉ derived_cols →
  "Total Workers" ≠ col ∧ "Female Ratio" ≠ col ∧ "Urban Ratio" ≠ col
  ∧ "Industry Category" ≠ col.
Proof. unfold derived_cols. set_solver. Qed.

Lemma transform_row_other parse_float r col :
  col ∉ numeric_cols → col ∉ derived_cols →
  transform_row parse_float r !! col = r !! col.
Proof.
  intros Hn (? & ? & ? & ?)%not_derived_ne. unfold transform_row. cbn zeta.
  rewrite !lookup_insert_ne by done. by apply coerce_row_other.
Qed.

Lemma transform_row_numeric parse_float r col :
  col ∈ numeric_cols →
  transform_row parse_float r !! col = Some (CNum (coerced parse_float col r)).
Proof.
  intros Hn. pose proof (numeric_not_derived _ Hn) as (? & ? & ? & ?)%not_derived_ne.
  unfold transform_row. cbn zeta.
  rewrite !lookup_insert_ne by done. by apply coerce_row_numeric.
Qed.

Lemma transform_row_total parse_float r :
  transform_row parse_float r !! "Total Workers"
  = Some (CNum (row_total parse_float r)).
Proof.
  unfold transform_row, plus. cbn zeta. map_simpl.
  by rewrite !coerce_row_numeric_total by compute_done.
Qed.

Lemma transform_row_female parse_float r :
  transform_row parse_float r !! "Female Ratio"
  = Some (CNum (fillna 0 (replace_inf (row_female_quotient parse_float r)))).
Proof.
  unfold transform_row, ratio, plus. cbn zeta. map_simpl.
  by rewrite !coerce_row_numeric_total by compute_done.
Qed.

Lemma transform_row_urban parse_float r :
  transform_row parse_float r !! "Urban Ratio"
  = Some (CNum (fillna 0 (replace_inf (row_urban_quotient parse_float r)))).
Proof.
  unfold transform_row, ratio, plus. cbn zeta. map_simpl.
  by rewrite !coerce_row_numeric_total by compute_done.
Qed.

Lemma transform_row_category parse_float r :
  transform_row parse_float r !! "Industry Category"
  = Some (CStr (classify_industry (r !!! "NIC_Name"))).
Proof.
  unfold transform_row. cbn zeta. map_simpl.
  by rewrite coerce_row_other_total by compute_done.
Qed.

(** ** Reading columns of a derived frame *)

Lemma mapM_result_fmap {A B} (f : A → result B) (g : A → B) (l : list A) :
  Forall (λ x, f x = Ok (g x)) l → mapM f l = Ok (g <$> l).
Proof.
  induction 1 as [|x l Hx _ IH]; [done|].
  cbn [mapM]. rewrite Hx. cbn. rewrite IH. done.
Qed.

Lemma floats_derived col df :
  col ∈ columns df →
  Forall (λ r, ∃ q, r !!! col = CNum q) (rows df) →
  floats col df = Ok (num col <$> rows df).
Proof.
  intros Hcol Hrows. unfold floats, column.
  rewrite bool_decide_eq_true_2 by done. cbn.
  rewrite (mapM_result_fmap _ (λ c, match c with CNum q => q | _ => 0 end)).
  - by rewrite <-list_fmap_compose.
  - apply Forall_fmap. eapply Forall_impl; [exact Hrows|].
    intros r [q Hq]. cbn. by rewrite Hq.
Qed.

Lemma labels_derived df :
  "Industry Category" ∈ columns df →
  Forall (λ r, ∃ s, r !!! "Industry Category" = CStr s) (rows df) →
  labels "Industry Category" df = Ok (label <$> rows df).
Proof.
  intros Hcol Hrows. unfold labels, column.
  rewrite bool_decide_eq_true_2 by done. cbn.
  rewrite (mapM_result_fmap _ (λ c, match c with CStr s => s | _ => "" end)).
  - by rewrite <-list_fmap_compose.
  - apply Forall_fmap. eapply Forall_impl; [exact Hrows|].
    intros r [q Hq]. cbn. by rewrite Hq.
Qed.

Lemma derived_frame_col df col :
  derived_frame df → col ∈ read_cols →
  col ∈ columns df ∧ Forall (λ r, ∃ q, r !!! col = CNum q) (rows df).
Proof.
  intros (_ & Hcols & Hrows) Hin. split; [by apply Hcols|].
  eapply Forall_impl; [exact Hrows|]. intros r [_ Hr]. by apply Hr.
Qed.

Lemma derived_frame_labels df :
  derived_frame df →
  Forall (λ r, ∃ s, r !!! "Industry Category" = CStr s) (rows df).
Proof.
  intros (_ & _ & Hrows). eapply Forall_impl; [exact Hrows|]. by intros r [? _].
Qed.

Lemma group_rows_members df k :
  derived_frame df →
  filter (λ r, r !!! "Industry Category" = CStr k) (rows df) = members df k.
Proof.
  intros Hdf%derived_frame_labels. unfold members.
  induction Hdf as [|r l [s Hs] _ IH]; [done|].
  assert (label r = s) as Hl by (unfold label; by rewrite Hs).
  rewrite !filter_cons, IH, Hs, Hl.
  destruct (decide (s = k)) as [->|Hne].
  - by rewrite decide_True.
  - rewrite decide_False; [done|]. by intros [= ->].
Qed.

Lemma derived_frame_members df k :
  derived_frame df → derived_frame (with_rows df (members df k)).
Proof.
  intros (? & ? & Hrows). repeat split; [done..|].
  cbn. apply Forall_forall. intros r [_ Hr]%list_elem_of_filter.
  revert r Hr. by apply Forall_forall.
Qed.

Lemma groupby_derived df :
  derived_frame df →
  groupby "Industry Category" df
  = Ok {| obj := df;
          groups := (λ k, (k, with_rows df (members df k))) <$> categories df |}.
Proof.
  intros Hdf. unfold groupby. pose proof Hdf as (HIC & _ & _).
  rewrite labels_derived; [|exact HIC|by apply derived_frame_labels]. cbn.
  do 2 f_equal. apply list_fmap_ext. intros _ k _.
  unfold with_rows. by rewrite group_rows_members.
Qed.

Lemma agg_derived f col df :
  derived_frame df → col ∈ read_cols →
  agg f col {| obj := df;
               groups := (λ k, (k, with_rows df (members df k))) <$> categories df |}
  = Ok ((λ k, (k, f (num col <$> members df k))) <$> categories df).
Proof.
  intros Hdf Hcol. unfold agg, column. cbn [obj groups].
  destruct (derived_frame_col df col Hdf Hcol) as [Hc _].
  rewrite bool_decide_eq_true_2 by done. cbn.
  rewrite (mapM_result_fmap _ (λ g, (g.1, f (num col <$> rows g.2)))).
  - by rewrite <-list_fmap_compose.
  - apply Forall_fmap, Forall_forall. intros k _. cbn.
    destruct (derived_frame_col _ col (derived_frame_members df k Hdf) Hcol)
      as [Hc' Hr'].
    by rewrite floats_derived.
Qed.

Lemma zip_with_fmap3 {A B C D E} (f : B → C * D → E)
    (g : A → B) (h : A → C) (i : A → D) (l : list A) :
  zip_with f (g <$> l) (zip (h <$> l) (i <$> l)) = (λ x, f (g x) (h x, i x)) <$> l.
Proof. induction l as [|x l IH]; [done|]. cbn. by rewrite <-IH. Qed.

Lemma series_mean_members col df k :
  series_mean (num col <$> members df k) = category_mean col df k.
Proof. unfold series_mean, category_mean. by rewrite length_fmap. Qed.

Lemma industry_stats_derived df :
  derived_frame df →
  industry_stats df
  = Ok ((λ k, {| category := k;
                 total_workers := category_total df k;
                 female_ratio := category_mean "Female Ratio" df k;
                 urban_ratio := category_mean "Urban Ratio" df k;
                 growth_score := category_growth df k |}) <$> categories df).
Proof.
  intros Hdf. unfold industry_stats.
  rewrite groupby_derived by done. cbn.
  rewrite !agg_derived by (done || compute_done). cbn.
  rewrite zip_with_fmap3. f_equal. apply list_fmap_ext. intros _ k _. cbn.
  rewrite !series_mean_members. unfold category_total, category_growth.
  f_equal. ring.
Qed.

Lemma zip_with_fmap2 {A B C D} (f : B → C → D) (g : A → B) (h : A → C) (l : list A) :
  zip_with f (g <$> l) (h <$> l) = (λ x, f (g x) (h x)) <$> l.
Proof. induction l as [|x l IH]; [done|]. cbn. by rewrite <-IH. Qed.

Lemma generate_insights_derived df :
  derived_frame df →
  generate_insights df
  = top ← idxmax ((λ k, (k, category_total df k)) <$> categories df);
    growth ← idxmax ((λ k, (k, category_growth df k)) <$> categories df);
    Ok {| top_industry := top;
          top_share :=
            fmul (fdiv (series_max (category_total df <$> categories df))
                       (Some (series_sum (category_total df <$> categories df))))
                 (Qc_of_Z 100);
          female_percent :=
            fmul (fdiv (Some (series_sum
                         ((λ r, num "Main_Workers_Total_Females" r
                                + num "Marginal_Workers_Total_Females" r)
                          <$> rows df)))
                       (Some (grand_total df)))
                 (Qc_of_Z 100);
          marginal_percent :=
            fmul (fdiv (Some (series_sum
                         (num "Marginal_Workers_Total_Persons" <$> rows df)))
                       (Some (grand_total df)))
                 (Qc_of_Z 100);
          growth_industry := growth |}.
Proof.
  intros Hdf. unfold generate_insights.
  rewrite groupby_derived by done. cbn.
  rewrite agg_derived by (done || compute_done). cbn.
  rewrite industry_stats_derived by done.
  destruct (derived_frame_col df "Main_Workers_Total_Females" Hdf) as [? ?];
    [compute_done|].
  destruct (derived_frame_col df "Marginal_Workers_Total_Females" Hdf) as [? ?];
    [compute_done|].
  destruct (derived_frame_col df "Total Workers" Hdf) as [? ?]; [compute_done|].
  destruct (derived_frame_col df "Marginal_Workers_Total_Persons" Hdf) as [? ?];
    [compute_done|].
  rewrite !floats_derived by done.
  rewrite <-!list_fmap_compose. cbn.
  destruct (categories df) as [|k0 ks]; [done|]. cbn.
  by rewrite zip_with_fmap2, <-!list_fmap_compose.
Qed.

(** ** Maximum and first maximum of a Series *)

Lemma idxmax_from_spec b s :
  ∃ pre v post,
    b :: s = pre ++ (idxmax_from b s, v) :: post
    ∧ Forall (λ kv, kv.2 < v) pre ∧ Forall (λ kv, kv.2 ≤ v) post.
Proof.
  revert b. induction s as [|kv s IH]; intros b.
  - exists [], b.2, []. destruct b. by repeat split.
  - cbn [idxmax_from]. destruct (decide (b.2 < kv.2)) as [Hlt|Hge].
    + destruct (IH kv) as (pre & v & post & Heq & Hpre & Hpost).
      exists (b :: pre), v, post. rewrite Heq. repeat split; [|done].
      constructor; [|done].
      destruct pre as [|p pre]; injection Heq as Hkv Hs.
      * by rewrite Hkv in Hlt.
      * apply Forall_cons in Hpre as [Hp _]. rewrite Hkv in Hlt.
        by eapply Qclt_trans.
    + apply Qcnot_lt_le in Hge.
      destruct (IH b) as (pre & v & post & Heq & Hpre & Hpost).
      destruct pre as [|p pre]; injection Heq as Hb Hs.
      * assert (b.2 = v) as Hv by (by rewrite Hb).
        exists [], v, (kv :: post). subst s. cbn [app]. rewrite <-Hb.
        repeat split; [done|]. constructor; [|done]. by rewrite <-Hv.
      * apply Forall_cons in Hpre as [Hp Hpre]. subst p.
        exists (b :: kv :: pre), v, post.
        split; [cbn [app]; by rewrite <-Hs|]. split; [|done].
        constructor; [done|]. constructor; [|done].
        by eapply Qcle_lt_trans.
Qed.

Lemma idxmax_spec s k :
  idxmax s = Ok k →
  ∃ pre v post,
    s = pre ++ (k, v) :: post
    ∧ Forall (λ kv, kv.2 < v) pre ∧ Forall (λ kv, kv.2 ≤ v) post.
Proof.
  destruct s as [|b s]; [done|]. intros [= <-]. apply idxmax_from_spec.
Qed.

Lemma foldl_max_spec (v m : Qc) (l : list Qc) :
  v ∈ m :: l → Forall (λ y, y ≤ v) (m :: l) →
  foldl (λ m y, if decide (m < y) then y else m) m l = v.
Proof.
  revert m. induction l as [|y l IH]; intros m Hin Hle.
  - apply list_elem_of_singleton in Hin. done.
  - cbn [foldl]. apply Forall_cons in Hle as [Hm Hle].
    apply Forall_cons in Hle as [Hy Hle].
    apply IH.
    + destruct (decide (m < y)) as [Hlt|Hge].
      * apply elem_of_cons in Hin as [->|Hin]; [|done].
        exfalso. by apply (Qclt_not_le _ _ Hlt).
      * apply Qcnot_lt_le in Hge.
        apply elem_of_cons in Hin as [->|Hin]; [by left|].
        apply elem_of_cons in Hin as [->|Hin]; [|by right].
        apply elem_of_cons. left. by apply Qcle_antisym.
    + constructor; [|done]. by destruct (decide (m < y)).
Qed.

Lemma series_max_spec (v : Qc) (l : list Qc) :
  v ∈ l → Forall (λ y, y ≤ v) l → series_max l = Some v.
Proof.
  destruct l as [|x l]; [by intros ?%elem_of_nil|].
  intros Hin Hle. cbn. f_equal. by apply foldl_max_spec.
Qed.

(** ** Sums, group keys and permutations *)


Lemma elem_of_categories df k :
  k ∈ categories df ↔ ∃ r, r ∈ rows df ∧ label r = k.
Proof.
  unfold categories. rewrite merge_sort_Permutation, elem_of_remove_dups.
  rewrite list_elem_of_fmap. split; intros (r & ? & ?); by exists r.
Qed.

Lemma categories_NoDup df : NoDup (categories df).
Proof.
  unfold categories. rewrite merge_sort_Permutation. apply NoDup_remove_dups.
Qed.


Lemma categories_nil df : categories df = [] ↔ rows df = [].
Proof.
  split.
  - intros Hnil. destruct (rows df) as [|r l] eqn:Hrows; [done|].
    assert (label r ∈ categories df) as Hin.
    { apply elem_of_categories. exists r. rewrite Hrows. split; [left|done]. }
    rewrite Hnil in Hin. by apply elem_of_nil in Hin.
  - intros Hnil. unfold categories. by rewrite Hnil.
Qed.



Lemma series_sum_cons x l : series_sum (x :: l) = x + series_sum l.
Proof. reflexivity. Qed.

Lemma series_sum_zero {A} (l : list A) : series_sum ((λ _, 0) <$> l) = 0.
Proof.
  induction l as [|x l IH]; [done|].
  rewrite fmap_cons, series_sum_cons, IH. ring.
Qed.

Lemma series_sum_indicator (x : Qc) (k0 : string) (ks : list string) :
  NoDup ks → k0 ∈ ks →
  series_sum ((λ k, if decide (k0 = k) then x else 0) <$> ks) = x.
Proof.
  induction 1 as [|k ks Hk Hnd IH]; [by intros ?%elem_of_nil|].
  intros Hin. rewrite fmap_cons, series_sum_cons.
  destruct (decide (k0 = k)) as [->|Hne].
  - rewrite (list_fmap_ext _ (λ _, 0) ks), series_sum_zero; [ring|].
    intros _ k' Hk'%list_elem_of_lookup_2. rewrite decide_False; [done|].
    by intros ->.
  - apply elem_of_cons in Hin as [?|Hin]; [done|]. rewrite IH by done. ring.
Qed.

Lemma series_sum_groups (v : gmap string cell → Qc) (ks : list string)
    (l : list (gmap string cell)) :
  NoDup ks → (∀ r, r ∈ l → label r ∈ ks) →
  series_sum ((λ k, series_sum (v <$> filter (λ r, label r = k) l)) <$> ks)
  = series_sum (v <$> l).
Proof.
  intros Hnd. induction l as [|r l IH]; intros Hl.
  - apply series_sum_zero.
  - rewrite fmap_cons, series_sum_cons.
    rewrite <-IH by (intros; apply Hl; by right).
    rewrite <-(series_sum_indicator (v r) (label r) ks Hnd)
      by (apply Hl; left).
    clear IH Hl Hnd. induction ks as [|k ks IHk]; [cbn; ring|].
    rewrite !fmap_cons, !series_sum_cons, IHk, filter_cons.
    destruct (decide (label r = k));
      rewrite ?fmap_cons, ?series_sum_cons; ring.
Qed.

Lemma sum_category_totals df :
  series_sum (category_total df <$> categories df) = grand_total df.
Proof.
  apply (series_sum_groups (num "Total Workers")).
  - apply categories_NoDup.
  - intros r Hr. apply elem_of_categories. by exists r.
Qed.

(** ** The validated, transformed table is a derived frame *)

Lemma missing_cols_nil df :
  missing_cols df = [] ↔ ∀ col, col ∈ required_cols → col ∈ columns df.
Proof.
  unfold missing_cols. split.
  - intros Hnil col Hcol. destruct (decide (col ∈ columns df)) as [|Hnin]; [done|].
    assert (col ∈ filter (λ col, col ∉ columns df) required_cols) as Hin
      by by apply list_elem_of_filter.
    rewrite Hnil in Hin. by apply elem_of_nil in Hin.
  - intros Hall. apply elem_of_nil_inv. intros col [Hnin Hcol]%list_elem_of_filter.
    by apply Hnin, Hall.
Qed.

Lemma assign_columns_old col f df :
  col ∈ columns df → columns (assign col f df) = columns df.
Proof. intros Hc. cbn. by rewrite bool_decide_eq_true_2. Qed.

Lemma coerce_all_columns parse_float cols df :
  (∀ col, col ∈ cols → col ∈ columns df) →
  columns (foldl (λ df col, coerce parse_float col df) df cols) = columns df.
Proof.
  revert df. induction cols as [|c cols IH]; intros df Hall; [done|].
  cbn [foldl]. unfold coerce at 2.
  rewrite IH; rewrite assign_columns_old; try done.
  - apply Hall. left.
  - intros col Hcol. apply Hall. by right.
  - apply Hall. left.
Qed.

Lemma numeric_required col : col ∈ numeric_cols → col ∈ required_cols.
Proof. unfold numeric_cols. cbn [drop required_cols]. intros ?. by right. Qed.

(** The header after [transform] when no required column is missing. *)
Lemma transform_columns parse_float df :
  missing_cols df = [] →
  columns (transform parse_float df)
  = foldl (λ cols col, if bool_decide (col ∈ cols) then cols else cols ++ [col])
      (columns df) derived_cols.
Proof.
  intros Hall. pose proof (proj1 (missing_cols_nil df) Hall) as Hcols.
  unfold transform. cbn [columns assign foldl derived_cols].
  rewrite coerce_all_columns; [done|].
  intros col Hcol. by apply Hcols, numeric_required.
Qed.

Lemma transform_columns_mono parse_float df col :
  missing_cols df = [] → col ∈ columns df → col ∈ columns (transform parse_float df).
Proof.
  intros Hall Hcol. rewrite transform_columns by done. cbn [foldl derived_cols].
  repeat (case_bool_decide; [|apply elem_of_app; left]); done.
Qed.

Lemma transform_columns_derived parse_float df col :
  missing_cols df = [] → col ∈ derived_cols →
  col ∈ columns (transform parse_float df).
Proof.
  intros Hall Hcol. rewrite transform_columns by done.
  generalize (columns df). intros cols. revert cols.
  induction derived_cols as [|c cs IH]; intros cols;
    [by apply elem_of_nil in Hcol|].
  cbn [foldl]. apply elem_of_cons in Hcol as [->|Hcol]; [|by apply IH].
  assert (∀ cs cols, c ∈ cols →
    c ∈ foldl (λ cols col, if bool_decide (col ∈ cols) then cols else cols ++ [col])
          cols cs) as Hmono.
  { clear. induction cs as [|c' cs IH]; intros cols Hc; [done|]. cbn [foldl].
    apply IH. case_bool_decide; [done|]. apply elem_of_app. by left. }
  apply Hmono. case_bool_decide; [done|]. apply elem_of_app. right. left.
Qed.

Lemma transform_row_derived parse_float r : derived_row (transform_row parse_float r).
Proof.
  split.
  - eexists. rewrite lookup_total_alt. by rewrite transform_row_category.
  - intros col Hcol. unfold read_cols in Hcol.
    repeat (apply elem_of_cons in Hcol as [->|Hcol];
      [rewrite lookup_total_alt;
       first [ rewrite transform_row_total | rewrite transform_row_female
             | rewrite transform_row_urban
             | rewrite transform_row_numeric by compute_done ];
       by eexists|]).
    by apply elem_of_nil in Hcol.
Qed.

Lemma transform_derived parse_float df :
  missing_cols df = [] → derived_frame (transform parse_float df).
Proof.
  intros Hall. split; [|split].
  - apply transform_columns_derived; [done|compute_done].
  - intros col Hcol.
    destruct (decide (col ∈ derived_cols)).
    + by apply transform_columns_derived.
    + apply transform_columns_mono; [done|].
      apply (proj1 (missing_cols_nil df) Hall).
      revert col Hcol n.
      apply (proj1 (Forall_forall
        (λ col, col ∉ derived_cols → col ∈ required_cols) read_cols)).
      compute_done.
  - rewrite transform_rows. apply Forall_fmap, Forall_forall.
    intros r _. apply transform_row_derived.
Qed.

(** * The claims *)


(** C3, as the code has it.  The validator lists the required columns
    absent from the header in the order of [required_cols]: NIC_Name first,
    then the ten numeric columns in the order of the data model.  When the
    list is not empty the call reports exactly that list, joined by commas,
    and returns the empty frame (no columns, no rows); when all eleven
    columns are present nothing is reported and the table goes through the
    transformer.  Dropping only Main_Workers_Total_Males reports exactly
    that column. *)
Theorem validator_reports_missing_in_code_order
    (parse_float : string → option Qc) (df : DataFrame) :
  required_cols = "NIC_Name" :: spec_numeric_order
  ∧ missing_cols df `sublist_of` required_cols
  ∧ (∀ col, col ∈ missing_cols df ↔ col ∈ required_cols ∧ col ∉ columns df)
  ∧ (missing_cols df ≠ [] →
       process_data parse_float df
       = (empty_frame,
          [st_error ("Missing columns: " +:+ String.concat ", " (missing_cols df))])
       ∧ columns empty_frame = [] ∧ rows empty_frame = [])
  ∧ ((∀ col, col ∈ required_cols → col ∈ columns df) →
       process_data parse_float df = (transform parse_float df, []))
  ∧ (∀ rws,
       let dropped := {| columns := filter (λ col, col ≠ "Main_Workers_Total_Males")
                                      required_cols;
                         rows := rws |} in
       missing_cols dropped = ["Main_Workers_Total_Males"]
       ∧ process_data parse_float dropped
         = (empty_frame, [st_error "Missing columns: Main_Workers_Total_Males"])).
Proof.
  split; [reflexivity|]. split; [apply sublist_filter|].
  split; [|split; [|split]].
  - intros col. unfold missing_cols. rewrite list_elem_of_filter. tauto.
  - intros Hne. unfold process_data.
    destruct (missing_cols df) as [|c cs] eqn:Hmiss; done.
  - intros Hall%missing_cols_nil. unfold process_data. by rewrite Hall.
  - intros rws dropped.
    assert (missing_cols dropped = ["Main_Workers_Total_Males"]) as Hmiss
      by (by vm_compute).
    split; [done|]. unfold process_data. by rewrite Hmiss.
Qed.

(** C3 as stated fails: with NIC_Name and a numeric column both missing,
    the code reports NIC_Name first, not last. *)
Lemma validator_order_counterexample :
  let df := {| columns := filter (λ col, col ≠ "NIC_Name"
                                         ∧ col ≠ "Marginal_Workers_Total_Males")
                            required_cols;
               rows := [] |} in
  spec_missing_cols df = ["Marginal_Workers_Total_Males"; "NIC_Name"]
  ∧ missing_cols df = ["NIC_Name"; "Marginal_Workers_Total_Males"]
  ∧ process_data parse_decimal df
    = (empty_frame,
       [st_error "Missing columns: NIC_Name, Marginal_Workers_Total_Males"])
  ∧ missing_cols df ≠ spec_missing_cols df.
Proof. by vm_compute. Qed.

(** ** Ratios *)

Lemma clean_ratio_zero (a : Qc) :
  fillna 0 (replace_inf (fdiv (Some a) (Some 0))) = 0.
Proof. cbn. by destruct (a ?= 0). Qed.

Lemma clean_ratio_div (a b : Qc) :
  b ≠ 0 → fillna 0 (replace_inf (fdiv (Some a) (Some b))) = a / b.
Proof.
  intros Hb. cbn. destruct (b ?= 0) eqn:Hcmp; [|done..].
  by apply Qceq_alt in Hcmp.
Qed.

Lemma clean_ratio_nonneg (a b : Qc) :
  0 ≤ a → 0 ≤ b → 0 ≤ fillna 0 (replace_inf (fdiv (Some a) (Some b))).
Proof.
  intros Ha Hb. destruct (decide (b = 0)) as [->|Hne].
  - by rewrite clean_ratio_zero.
  - rewrite clean_ratio_div by done. apply Qcmult_nonneg_nonneg; [done|].
    apply Qclt_le_weak, Qcinv_pos.
    destruct (Qcle_lt_or_eq _ _ Hb) as [?|?]; [done|]. by destruct Hne.
Qed.

Lemma process_data_valid parse_float df :
  missing_cols df = [] →
  process_data parse_float df = (transform parse_float df, []).
Proof. intros Hall. unfold process_data. by rewrite Hall. Qed.

Lemma process_data_rows parse_float df :
  missing_cols df = [] →
  rows (process_data parse_float df).1 = transform_row parse_float <$> rows df.
Proof.
  intros Hall. rewrite process_data_valid by done. apply transform_rows.
Qed.

(** ** Coercion and the frame of the transformer *)

Lemma append_new_columns (cols news : list string) :
  NoDup news → (∀ col, col ∈ news → col ∉ cols) →
  foldl (λ cols col, if bool_decide (col ∈ cols) then cols else cols ++ [col])
    cols news
  = cols ++ news.
Proof.
  revert cols. induction news as [|c cs IH]; intros cols Hnd Hnew.
  - by rewrite app_nil_r.
  - apply NoDup_cons in Hnd as [Hc Hnd]. cbn [foldl].
    rewrite bool_decide_eq_false_2 by (apply Hnew; left).
    rewrite IH; [by rewrite <-app_assoc|done|].
    intros col Hcol [?|Hin]%elem_of_app.
    + by apply (Hnew col); [right|].
    + apply list_elem_of_singleton in Hin as ->. done.
Qed.

(** C10, as the code has it.  For a validated table whose header has none
    of the four derived names, the transformed table has the input header
    followed by Total Workers, Female Ratio, Urban Ratio and Industry
    Category; it has the same number of rows, in the same order, and row by
    row the ten numeric cells are the coerced ones, the four new cells are
    set, and every other cell is the input's. *)
Theorem transform_frame
    (parse_float : string → option Qc) (df : DataFrame) :
  missing_cols df = [] →
  (∀ col, col ∈ derived_cols → col ∉ columns df) →
  columns (process_data parse_float df).1 = columns df ++ derived_cols
  ∧ length (rows (process_data parse_float df).1) = length (rows df)
  ∧ Forall2 (λ r r',
      (∀ col, col ∈ numeric_cols →
         r' !! col = Some (CNum (fillna 0 (to_numeric parse_float (r !!! col)))))
      ∧ (∀ col, col ∈ derived_cols → is_Some (r' !! col))
      ∧ (∀ col, col ∉ numeric_cols → col ∉ derived_cols → r' !! col = r !! col))
    (rows df) (rows (process_data parse_float df).1).
Proof.
  intros Hall Hnew. split; [|split].
  - rewrite process_data_valid by done. cbn [fst].
    rewrite transform_columns by done.
    apply append_new_columns; [compute_done|done].
  - rewrite process_data_rows by done. apply length_fmap.
  - rewrite process_data_rows by done.
    apply Forall2_fmap_r, Forall_Forall2_diag, Forall_forall. intros r _.
    split; [|split].
    + intros col Hcol. by rewrite transform_row_numeric.
    + intros col Hcol. unfold derived_cols in Hcol.
      repeat (apply elem_of_cons in Hcol as [->|Hcol];
        [first [ rewrite transform_row_total | rewrite transform_row_female
               | rewrite transform_row_urban | rewrite transform_row_category ];
         by eexists|]).
      by apply elem_of_nil in Hcol.
    + intros col ? ?. by apply transform_row_other.
Qed.

Lemma transform_frame_witness :
  missing_cols example_table = []
  ∧ (∀ col, col ∈ derived_cols → col ∉ columns example_table)
  ∧ columns (process_data parse_decimal example_table).1
    = columns example_table ++ derived_cols
  ∧ length (rows (process_data parse_decimal example_table).1)
    = length (rows example_table)
  ∧ Forall2 (λ r r',
      (∀ col, col ∈ numeric_cols →
         r' !! col = Some (CNum (fillna 0 (to_numeric parse_decimal (r !!! col)))))
      ∧ (∀ col, col ∈ derived_cols → is_Some (r' !! col))
      ∧ (∀ col, col ∉ numeric_cols → col ∉ derived_cols → r' !! col = r !! col))
    (rows example_table) (rows (process_data parse_decimal example_table).1).
Proof.
  assert (missing_cols example_table = []) as Hall by reflexivity.
  assert (∀ col, col ∈ derived_cols → col ∉ columns example_table) as Hnew.
  { apply Forall_forall. compute_done. }
  split; [exact Hall|]. split; [exact Hnew|].
  exact (transform_frame parse_decimal example_table Hall Hnew).
Defined.

(** C10 as stated fails: when the file already has a column Total Workers,
    only three columns are added, and that column, which is none of the ten
    numeric ones, is overwritten. *)
Lemma transform_frame_counterexample :
  missing_cols clashing_table = []
  ∧ "Total Workers" ∈ columns clashing_table
  ∧ ("Total Workers" ∉ numeric_cols)
  ∧ columns (process_data parse_decimal clashing_table).1
    = columns clashing_table ++ ["Female Ratio"; "Urban Ratio"; "Industry Category"]
  ∧ (λ r : gmap string cell, r !! "Total Workers") <$> rows clashing_table
    = [Some (CStr "seven")]
  ∧ (λ r : gmap string cell, r !! "Total Workers")
      <$> rows (process_data parse_decimal clashing_table).1
    = [Some (CNum (Qc_of_Z 7))].
Proof.
  split; [reflexivity|]. split; [compute_done|]. split; [compute_done|].
  split; [reflexivity|]. split; [reflexivity|].
  rewrite process_data_rows by reflexivity.
  cbn [rows clashing_table fmap list_fmap].
  rewrite transform_row_total. do 3 f_equal. by apply Qc_is_canon.
Qed.

(** ** Row order *)



(** ** The insights of a non-empty derived table *)

Lemma idxmax_keyed_spec (f : string → Qc) (ks : list string) (k : string) :
  idxmax ((λ k, (k, f k)) <$> ks) = Ok k →
  ∃ before after,
    ks = before ++ k :: after
    ∧ Forall (λ k', f k' < f k) before ∧ Forall (λ k', f k' ≤ f k) after.
Proof.
  intros (pre & v & post & Heq & Hpre & Hpost)%idxmax_spec.
  apply fmap_app_inv in Heq as (before & rest & -> & Hrest & ->).
  symmetry in Hrest.
  apply fmap_cons_inv in Hrest as (k' & after & [= <- <-] & -> & ->).
  exists before, after. split; [done|]. split.
  - apply Forall_forall. intros k' Hk'.
    apply (proj1 (Forall_forall _ _) Hpre (k', f k')).
    by apply (list_elem_of_fmap_2 (λ k, (k, f k))).
  - apply Forall_forall. intros k' Hk'.
    apply (proj1 (Forall_forall _ _) Hpost (k', f k')).
    by apply (list_elem_of_fmap_2 (λ k, (k, f k))).
Qed.

Lemma idxmax_keyed_max (f : string → Qc) (ks : list string) (k : string) :
  idxmax ((λ k, (k, f k)) <$> ks) = Ok k →
  k ∈ ks ∧ (∀ k', k' ∈ ks → f k' ≤ f k) ∧ series_max (f <$> ks) = Some (f k).
Proof.
  intros (before & after & -> & Hb & Ha)%idxmax_keyed_spec.
  assert (∀ k', k' ∈ before ++ k :: after → f k' ≤ f k) as Hmax.
  { intros k' [Hin|Hin]%elem_of_app.
    - apply Qclt_le_weak. revert k' Hin. by apply Forall_forall.
    - apply elem_of_cons in Hin as [->|Hin]; [apply Qcle_refl|].
      revert k' Hin. by apply Forall_forall. }
  split; [|split; [done|]].
  - apply elem_of_app. right. left.
  - apply series_max_spec.
    + apply list_elem_of_fmap_2, elem_of_app. right. left.
    + apply Forall_fmap, Forall_forall. exact Hmax.
Qed.




Lemma insights_of_derived df :
  derived_frame df → rows df ≠ [] →
  ∃ ins,
    generate_insights df = Ok ins
    ∧ idxmax ((λ k, (k, category_total df k)) <$> categories df)
      = Ok (top_industry ins)
    ∧ idxmax ((λ k, (k, category_growth df k)) <$> categories df)
      = Ok (growth_industry ins)
    ∧ top_share ins
      = fmul (fdiv (series_max (category_total df <$> categories df))
                   (Some (grand_total df))) (Qc_of_Z 100)
    ∧ female_percent ins
      = fmul (fdiv (Some (series_sum
                     ((λ r, num "Main_Workers_Total_Females" r
                            + num "Marginal_Workers_Total_Females" r)
                      <$> rows df)))
                   (Some (grand_total df))) (Qc_of_Z 100)
    ∧ marginal_percent ins
      = fmul (fdiv (Some (series_sum
                     (num "Marginal_Workers_Total_Persons" <$> rows df)))
                   (Some (grand_total df))) (Qc_of_Z 100).
Proof.
  intros Hdf Hrows. rewrite generate_insights_derived by done.
  rewrite sum_category_totals.
  destruct (categories df) as [|k0 ks] eqn:Hcat.
  { by apply categories_nil in Hcat. }
  cbn. eexists. split; [reflexivity|]. by cbn.
Qed.

Lemma validated_derived parse_float raw :
  missing_cols raw = [] → derived_frame (process_data parse_float raw).1.
Proof. intros Hall. rewrite process_data_valid by done. by apply transform_derived. Qed.

Lemma validated_rows_nonempty parse_float raw :
  missing_cols raw = [] → rows raw ≠ [] → rows (process_data parse_float raw).1 ≠ [].
Proof.
  intros Hall Hne. rewrite process_data_rows by done.
  by destruct (rows raw).
Qed.

Lemma members_nonempty df k : k ∈ categories df → members df k ≠ [].
Proof.
  intros (r & Hr & Hk)%elem_of_categories Hnil.
  assert (r ∈ members df k) as Hin by by apply list_elem_of_filter.
  rewrite Hnil in Hin. by apply elem_of_nil in Hin.
Qed.

(** ** Tables without data *)





(** * Further properties *)

(** ** The numbers of a transformed row *)

Lemma num_transform_numeric parse_float r col :
  col ∈ numeric_cols →
  num col (transform_row parse_float r) = coerced parse_float col r.
Proof.
  intros Hcol. unfold num. rewrite lookup_total_alt.
  by rewrite transform_row_numeric.
Qed.

Lemma num_transform_total parse_float r :
  num "Total Workers" (transform_row parse_float r) = row_total parse_float r.
Proof. unfold num. rewrite lookup_total_alt. by rewrite transform_row_total. Qed.

Lemma num_transform_female parse_float r :
  num "Female Ratio" (transform_row parse_float r)
  = fillna 0 (replace_inf (row_female_quotient parse_float r)).
Proof. unfold num. rewrite lookup_total_alt. by rewrite transform_row_female. Qed.

Lemma num_transform_urban parse_float r :
  num "Urban Ratio" (transform_row parse_float r)
  = fillna 0 (replace_inf (row_urban_quotient parse_float r)).
Proof. unfold num. rewrite lookup_total_alt. by rewrite transform_row_urban. Qed.

Lemma label_transform parse_float r :
  label (transform_row parse_float r) = classify_industry (r !!! "NIC_Name").
Proof. unfold label. rewrite lookup_total_alt. by rewrite transform_row_category. Qed.

Lemma coerced_transform parse_float r col :
  col ∈ numeric_cols →
  coerced parse_float col (transform_row parse_float r) = coerced parse_float col r.
Proof.
  intros Hcol. unfold coerced at 1. rewrite lookup_total_alt.
  by rewrite transform_row_numeric.
Qed.

(** ** Running the transformer twice *)

Lemma transform_row_idemp parse_float r :
  transform_row parse_float (transform_row parse_float r)
  = transform_row parse_float r.
Proof.
  apply map_eq. intros col.
  destruct (decide (col ∈ numeric_cols)) as [Hn|Hn].
  { rewrite !transform_row_numeric by done. by rewrite coerced_transform. }
  destruct (decide (col ∈ derived_cols)) as [Hd|Hd].
  - unfold derived_cols in Hd.
    repeat (apply elem_of_cons in Hd as [->|Hd]).
    + rewrite !transform_row_total. unfold row_total.
      by rewrite !coerced_transform by compute_done.
    + rewrite !transform_row_female. unfold row_female_quotient, row_total.
      by rewrite !coerced_transform by compute_done.
    + rewrite !transform_row_urban. unfold row_urban_quotient, row_total.
      by rewrite !coerced_transform by compute_done.
    + rewrite !transform_row_category. do 3 f_equal.
      rewrite !lookup_total_alt.
      by rewrite transform_row_other by compute_done.
    + by apply elem_of_nil in Hd.
  - by rewrite transform_row_other.
Qed.

Lemma keep_present_columns (cols news : list string) :
  (∀ col, col ∈ news → col ∈ cols) →
  foldl (λ cols col, if bool_decide (col ∈ cols) then cols else cols ++ [col])
    cols news
  = cols.
Proof.
  induction news as [|c cs IH]; intros Hall; [done|]. cbn [foldl].
  rewrite bool_decide_eq_true_2 by (apply Hall; left).
  apply IH. intros col Hcol. apply Hall. by right.
Qed.

Lemma transform_validated parse_float df :
  missing_cols df = [] → missing_cols (transform parse_float df) = [].
Proof.
  intros Hall. apply missing_cols_nil. intros col Hcol.
  apply transform_columns_mono; [done|].
  by apply (proj1 (missing_cols_nil df) Hall).
Qed.

Lemma transform_idemp parse_float df :
  missing_cols df = [] →
  transform parse_float (transform parse_float df) = transform parse_float df.
Proof.
  intros Hall.
  assert (columns (transform parse_float (transform parse_float df))
          = columns (transform parse_float df)) as Hcols.
  { rewrite (transform_columns _ (transform parse_float df))
      by by apply transform_validated.
    apply keep_present_columns. intros col Hcol.
    by apply transform_columns_derived. }
  assert (rows (transform parse_float (transform parse_float df))
          = rows (transform parse_float df)) as Hrows.
  { rewrite !transform_rows, <-list_fmap_compose.
    apply list_fmap_ext. intros _ r _. apply transform_row_idemp. }
  destruct (transform parse_float (transform parse_float df)),
    (transform parse_float df). cbn in *. by subst.
Qed.

(** X1.  Running [process_data] on its own result changes nothing: the
    returned frame is a fixed point, for a table that passes validation
    (a second run coerces, sums, divides and classifies to the same cells
    and adds no column) and for one that does not (the empty frame is
    returned again). *)
Theorem process_data_idempotent (parse_float : string → option Qc) (df : DataFrame) :
  (process_data parse_float (process_data parse_float df).1).1
  = (process_data parse_float df).1
  ∧ (missing_cols df = [] →
     process_data parse_float (process_data parse_float df).1
     = process_data parse_float df).
Proof.
  assert (missing_cols df = [] →
     process_data parse_float (process_data parse_float df).1
     = process_data parse_float df) as Hvalid.
  { intros Hall. rewrite (process_data_valid _ df) by done. cbn [fst].
    rewrite process_data_valid by by apply transform_validated.
    by rewrite transform_idemp. }
  split; [|done].
  destruct (missing_cols df) as [|c cs] eqn:Hmiss.
  - by rewrite Hvalid.
  - unfold process_data at 2 3. rewrite Hmiss. reflexivity.
Qed.

(** X2.  The insight request of [main] cannot fail on what [process_data]
    returns: when a required column is missing or the table has no rows
    no insights are requested, and in every other case
    [generate_insights] returns insights; no KeyError, ValueError or
    unsupported cell reaches [main]. *)
Theorem main_insights_never_fail (parse_float : string → option Qc) (df : DataFrame) :
  (missing_cols df ≠ [] ∨ rows df = [] →
   main (process_data parse_float df).1 = None)
  ∧ (missing_cols df = [] → rows df ≠ [] →
     ∃ ins, generate_insights (process_data parse_float df).1 = Ok ins
            ∧ main (process_data parse_float df).1 = Some (Ok ins)).
Proof.
  split.
  - intros [Hmiss|Hrows].
    + unfold process_data. by destruct (missing_cols df).
    + destruct (missing_cols df) as [|c cs] eqn:Hmiss.
      * unfold main, empty. rewrite process_data_rows by done. rewrite Hrows.
        by destruct (columns _).
      * unfold process_data. by rewrite Hmiss.
  - intros Hall Hne.
    pose proof (validated_derived parse_float df Hall) as Hdf.
    pose proof (validated_rows_nonempty parse_float df Hall Hne) as Hne'.
    destruct (insights_of_derived _ Hdf Hne') as (ins & Hins & _).
    exists ins. split; [done|]. unfold main, empty.
    destruct Hdf as (Hcol & _).
    destruct (columns (process_data parse_float df).1);
      [by apply elem_of_nil in Hcol|].
    destruct (rows (process_data parse_float df).1); [done|]. by rewrite Hins.
Qed.


(** ** Sums and percentages of non-negative counts *)

Lemma series_sum_nonneg (l : list Qc) : Forall (λ x, 0 ≤ x) l → 0 ≤ series_sum l.
Proof.
  induction 1 as [|x l Hx _ IH]; [apply Qcle_refl|].
  rewrite series_sum_cons. by apply Qcplus_nonneg_nonneg.
Qed.


Lemma series_sum_fmap_nonneg {A} (f : A → Qc) (l : list A) :
  (∀ x, x ∈ l → 0 ≤ f x) → 0 ≤ series_sum (f <$> l).
Proof.
  intros Hle. apply series_sum_nonneg, Forall_fmap, Forall_forall. exact Hle.
Qed.


Lemma series_sum_le_length (m : Qc) (l : list Qc) :
  Forall (λ y, y ≤ m) l → series_sum l ≤ Qc_of_Z (Z.of_nat (length l)) * m.
Proof.
  induction 1 as [|y l Hy _ IH].
  - change (series_sum []) with 0. change (Z.of_nat (length [])) with 0%Z.
    rewrite Z2Qc_inj_0, Qcmult_0_l. apply Qcle_refl.
  - rewrite series_sum_cons. cbn [length].
    rewrite Nat2Z.inj_succ, <-Z.add_1_l, Z2Qc_inj_add, Z2Qc_inj_1.
    rewrite Qcmult_plus_distr_l, Qcmult_1_l. by apply Qcplus_le_compat.
Qed.


Lemma nonneg_nonzero_pos (x : Qc) : 0 ≤ x → x ≠ 0 → 0 < x.
Proof. intros [?|?]%Qcle_lt_or_eq ?; [done|congruence]. Qed.



Lemma derived_label_known parse_float raw r :
  missing_cols raw = [] → r ∈ rows (process_data parse_float raw).1 →
  label r ∈ industry_labels.
Proof.
  intros Hall Hr. rewrite process_data_rows in Hr by done.
  apply list_elem_of_fmap in Hr as (r0 & -> & _).
  rewrite label_transform. apply classify_label.
Qed.

Lemma derived_categories_at_most_six parse_float raw :
  missing_cols raw = [] →
  (length (categories (process_data parse_float raw).1) ≤ 6)%nat.
Proof.
  intros Hall. change 6%nat with (length industry_labels).
  apply submseteq_length, NoDup_submseteq; [apply categories_NoDup|].
  intros k (r & Hr & <-)%elem_of_categories.
  by apply (derived_label_known parse_float raw).
Qed.


(** The Female and Urban Ratio cells of a derived row, from its own cells. *)
Lemma derived_ratios parse_float raw r :
  missing_cols raw = [] → r ∈ rows (process_data parse_float raw).1 →
  num "Female Ratio" r
  = fillna 0 (replace_inf (fdiv
      (Some (num "Main_Workers_Total_Females" r
             + num "Marginal_Workers_Total_Females" r))
      (Some (num "Total Workers" r))))
  ∧ num "Urban Ratio" r
    = fillna 0 (replace_inf (fdiv
        (Some (num "Main_Workers_Urban_Persons" r
               + num "Marginal_Workers_Urban_Persons" r))
        (Some (num "Total Workers" r)))).
Proof.
  intros Hall Hr. rewrite process_data_rows in Hr by done.
  apply list_elem_of_fmap in Hr as (r0 & -> & _).
  rewrite num_transform_female, num_transform_urban, num_transform_total.
  by rewrite !num_transform_numeric by compute_done.
Qed.



Lemma clean_ratio_unit (a b : Qc) :
  0 ≤ a → a ≤ b →
  0 ≤ fillna 0 (replace_inf (fdiv (Some a) (Some b)))
  ∧ fillna 0 (replace_inf (fdiv (Some a) (Some b))) ≤ 1.
Proof.
  intros Ha Hab.
  assert (0 ≤ b) as Hb by by eapply Qcle_trans.
  split; [by apply clean_ratio_nonneg|].
  destruct (decide (b = 0)) as [->|Hne].
  - rewrite clean_ratio_zero. compute_done.
  - rewrite clean_ratio_div by done.
    assert (0 < b) as Hpos by by apply nonneg_nonzero_pos.
    rewrite <-(Qcmult_inv_r b) by done.
    apply Qcmult_le_mono_nonneg_r; [|done]. by apply Qclt_le_weak, Qcinv_pos.
Qed.

Lemma category_mean_unit col df k :
  k ∈ categories df →
  (∀ r, r ∈ rows df → 0 ≤ num col r ∧ num col r ≤ 1) →
  0 ≤ category_mean col df k ∧ category_mean col df k ≤ 1.
Proof.
  intros Hk Hrows. unfold category_mean.
  pose proof (members_nonempty df k Hk) as Hne.
  assert (∀ r, r ∈ members df k → 0 ≤ num col r ∧ num col r ≤ 1) as Hm.
  { intros r [_ Hr]%list_elem_of_filter. by apply Hrows. }
  set (n := Qc_of_Z (Z.of_nat (length (members df k)))).
  assert (0 < n) as Hn.
  { unfold n. rewrite <-Z2Qc_inj_0. apply (proj1 (Z2Qc_inj_lt 0 _)).
    destruct (members df k); [done|]. cbn [length]. lia. }
  assert (0 ≤ /n) as Hinv by by apply Qclt_le_weak, Qcinv_pos.
  split.
  - apply Qcmult_nonneg_nonneg; [|done].
    apply series_sum_fmap_nonneg. intros r Hr. by destruct (Hm r Hr).
  - rewrite <-(Qcmult_inv_r n) by by apply Qclt_not_eq in Hn.
    apply Qcmult_le_mono_nonneg_r; [done|].
    rewrite <-(Qcmult_1_r n). unfold n.
    rewrite <-(length_fmap (num col)).
    apply series_sum_le_length, Forall_fmap, Forall_forall.
    intros r Hr. by destruct (Hm r Hr).
Qed.

(** X6.  When in every row the coerced female and urban counts lie between
    0 and the row's Total Workers, every category of the aggregate has a
    mean Female Ratio, a mean Urban Ratio and a Growth Score between 0
    and 1. *)
Theorem growth_score_bounds (parse_float : string → option Qc) (raw : DataFrame) :
  missing_cols raw = [] →
  (∀ r, r ∈ rows (process_data parse_float raw).1 →
        0 ≤ num "Main_Workers_Total_Females" r
            + num "Marginal_Workers_Total_Females" r
        ∧ num "Main_Workers_Total_Females" r
          + num "Marginal_Workers_Total_Females" r ≤ num "Total Workers" r
        ∧ 0 ≤ num "Main_Workers_Urban_Persons" r
              + num "Marginal_Workers_Urban_Persons" r
        ∧ num "Main_Workers_Urban_Persons" r
          + num "Marginal_Workers_Urban_Persons" r ≤ num "Total Workers" r) →
  ∃ stats,
    industry_stats (process_data parse_float raw).1 = Ok stats
    ∧ Forall (λ a,
        (0 ≤ female_ratio a ∧ female_ratio a ≤ 1)
        ∧ (0 ≤ urban_ratio a ∧ urban_ratio a ≤ 1)
        ∧ (0 ≤ growth_score a ∧ growth_score a ≤ 1)) stats.
Proof.
  intros Hall Hrows.
  pose proof (validated_derived parse_float raw Hall) as Hdf.
  eexists. split; [by apply industry_stats_derived|].
  apply Forall_fmap, Forall_forall. intros k Hk. cbn.
  assert (0 ≤ category_mean "Female Ratio" (process_data parse_float raw).1 k
          ∧ category_mean "Female Ratio" (process_data parse_float raw).1 k ≤ 1)
    as [Hf0 Hf1].
  { apply category_mean_unit; [done|]. intros r Hr.
    destruct (derived_ratios parse_float raw r Hall Hr) as [-> _].
    destruct (Hrows r Hr) as (? & ? & _). by apply clean_ratio_unit. }
  assert (0 ≤ category_mean "Urban Ratio" (process_data parse_float raw).1 k
          ∧ category_mean "Urban Ratio" (process_data parse_float raw).1 k ≤ 1)
    as [Hu0 Hu1].
  { apply category_mean_unit; [done|]. intros r Hr.
    destruct (derived_ratios parse_float raw r Hall Hr) as [_ ->].
    destruct (Hrows r Hr) as (_ & _ & ? & ?). by apply clean_ratio_unit. }
  split; [done|]. split; [done|]. unfold category_growth.
  assert (0 ≤ Q2Qc (4 # 10)) as H4 by compute_done.
  assert (0 ≤ Q2Qc (6 # 10)) as H6 by compute_done.
  split.
  - apply Qcplus_nonneg_nonneg; by apply Qcmult_nonneg_nonneg.
  - replace 1 with (Q2Qc (4 # 10) * 1 + Q2Qc (6 # 10) * 1)
      by by apply Qc_is_canon.
    apply Qcplus_le_compat; by apply Qcmult_le_mono_nonneg_l.
Qed.



(** ** The sidebar metrics *)

Lemma validated_names_kept parse_float raw :
  missing_cols raw = [] →
  (.!!! "NIC_Name") <$> rows (process_data parse_float raw).1
  = (.!!! "NIC_Name") <$> rows raw.
Proof.
  intros Hall. rewrite process_data_rows, <-list_fmap_compose by done.
  apply list_fmap_ext. intros _ r _. cbn. rewrite !lookup_total_alt.
  by rewrite transform_row_other by compute_done.
Qed.

Lemma derived_category_cells df :
  derived_frame df →
  (.!!! "Industry Category") <$> rows df = CStr <$> (label <$> rows df).
Proof.
  intros Hdf%derived_frame_labels. rewrite <-list_fmap_compose.
  apply list_fmap_ext. intros _ r Hr%list_elem_of_lookup_2. cbn.
  apply (proj1 (Forall_forall _ _) Hdf) in Hr as [s Hs].
  unfold label. by rewrite Hs.
Qed.

Lemma nunique_labels (l : list string) :
  nunique (CStr <$> l) = length (remove_dups l).
Proof.
  unfold nunique.
  assert (filter (λ c, c ≠ CNaN) (CStr <$> l) = CStr <$> l) as ->.
  { induction l as [|s l IH]; [done|]. rewrite fmap_cons, filter_cons_True by done.
    by rewrite IH. }
  apply Nat.le_antisymm.
  - rewrite <-(length_fmap CStr (remove_dups l)).
    apply submseteq_length, NoDup_submseteq; [apply NoDup_remove_dups|].
    intros c Hc. rewrite elem_of_remove_dups in Hc.
    apply list_elem_of_fmap in Hc as (s & -> & Hs).
    apply list_elem_of_fmap_2. by rewrite elem_of_remove_dups.
  - rewrite <-(length_fmap CStr (remove_dups l)).
    apply submseteq_length, NoDup_submseteq.
    + apply NoDup_fmap_2; [by intros ?? [= ->]|apply NoDup_remove_dups].
    + intros c (s & -> & Hs)%list_elem_of_fmap.
      rewrite elem_of_remove_dups in Hs. rewrite elem_of_remove_dups.
      by apply list_elem_of_fmap_2.
Qed.

Lemma categories_length df :
  length (categories df) = length (remove_dups (label <$> rows df)).
Proof. unfold categories. by rewrite merge_sort_Permutation. Qed.

Lemma distinct_images_le (f : cell → string) (cells : list cell) :
  (length (remove_dups (f <$> cells)) ≤ nunique cells + 1)%nat
  ∧ ((∀ c, c ∈ cells → c ≠ CNaN) →
     (length (remove_dups (f <$> cells)) ≤ nunique cells)%nat).
Proof.
  unfold nunique. split.
  - rewrite Nat.add_comm.
    rewrite <-(length_fmap f (remove_dups (filter (λ c, c ≠ CNaN) cells))).
    change (1 + ?n)%nat
      with (length (f CNaN :: (f <$> remove_dups (filter (λ c, c ≠ CNaN) cells)))).
    apply submseteq_length, NoDup_submseteq; [apply NoDup_remove_dups|].
    intros x Hx. rewrite elem_of_remove_dups in Hx.
    apply list_elem_of_fmap in Hx as (c & -> & Hc).
    destruct (decide (c = CNaN)) as [->|Hne]; [left|right].
    apply list_elem_of_fmap_2. rewrite elem_of_remove_dups.
    by apply list_elem_of_filter.
  - intros Hnames.
    rewrite <-(length_fmap f (remove_dups (filter (λ c, c ≠ CNaN) cells))).
    apply submseteq_length, NoDup_submseteq; [apply NoDup_remove_dups|].
    intros x Hx. rewrite elem_of_remove_dups in Hx.
    apply list_elem_of_fmap in Hx as (c & -> & Hc).
    apply list_elem_of_fmap_2. rewrite elem_of_remove_dups.
    apply list_elem_of_filter. split; [by apply Hnames|done].
Qed.

(** X8.  The sidebar metrics of a validated table: Total Workforce is the
    grand total the percentages divide by, and Categories is the number of
    groups of the aggregation.  Categories is at most six and at most
    Industries plus one: the label is a function of NIC_Name, and only the
    rows without a name, which [nunique] leaves out of Industries, can add
    a category (Other) of their own. *)
Theorem sidebar_summary_counts (parse_float : string → option Qc) (raw : DataFrame) :
  missing_cols raw = [] →
  sidebar_summary (process_data parse_float raw).1
  = Ok (grand_total (process_data parse_float raw).1,
        nunique ((.!!! "NIC_Name") <$> rows raw),
        length (categories (process_data parse_float raw).1))
  ∧ (length (categories (process_data parse_float raw).1) ≤ 6)%nat
  ∧ (length (categories (process_data parse_float raw).1)
     ≤ nunique ((.!!! "NIC_Name") <$> rows raw) + 1)%nat
  ∧ ((∀ r, r ∈ rows raw → r !!! "NIC_Name" ≠ CNaN) →
     (length (categories (process_data parse_float raw).1)
      ≤ nunique ((.!!! "NIC_Name") <$> rows raw))%nat)
  ∧ (rows raw ≠ [] →
     (1 ≤ length (categories (process_data parse_float raw).1))%nat).
Proof.
  intros Hall.
  pose proof (validated_derived parse_float raw Hall) as Hdf.
  set (df := (process_data parse_float raw).1) in *.
  assert (label <$> rows df
          = classify_industry <$> ((.!!! "NIC_Name") <$> rows raw)) as Hlabels.
  { unfold df. rewrite process_data_rows, <-!list_fmap_compose by done.
    apply list_fmap_ext. intros _ r _. apply label_transform. }
  split; [|split; [|split; [|split]]].
  - unfold sidebar_summary, column.
    destruct (derived_frame_col _ "Total Workers" Hdf) as [? ?]; [compute_done|].
    rewrite floats_derived by done. cbn.
    rewrite (bool_decide_eq_true_2 ("NIC_Name" ∈ columns df)).
    2:{ unfold df. rewrite process_data_valid by done.
        apply transform_columns_mono; [done|].
        apply (proj1 (missing_cols_nil raw) Hall). compute_done. }
    pose proof Hdf as (HIC & _ & _).
    cbn. rewrite (bool_decide_eq_true_2 ("Industry Category" ∈ columns df))
      by exact HIC. cbn.
    unfold df at 2. rewrite validated_names_kept by done.
    rewrite derived_category_cells, nunique_labels by done.
    by rewrite categories_length.
  - by apply derived_categories_at_most_six.
  - rewrite categories_length, Hlabels. apply distinct_images_le.
  - intros Hnames. rewrite categories_length, Hlabels.
    apply distinct_images_le. intros c (r & -> & Hr)%list_elem_of_fmap.
    by apply Hnames.
  - intros Hne. destruct (categories df) eqn:Hcat; [|cbn; lia].
    apply categories_nil in Hcat. exfalso.
    by apply (validated_rows_nonempty parse_float raw).
Qed.


(** ** Classification of longer names *)

Lemma string_app_assoc (a b c : string) : (a +:+ b) +:+ c = a +:+ b +:+ c.
Proof.
  induction a as [|x a IH]; [done|].
  change (String x ((a +:+ b) +:+ c) = String x (a +:+ b +:+ c)). by rewrite IH.
Qed.

Lemma lower_app (a b : string) : lower (a +:+ b) = lower a +:+ lower b.
Proof.
  induction a as [|x a IH]; [done|].
  change (String (lower_ascii x) (lower (a +:+ b))
          = String (lower_ascii x) (lower a +:+ lower b)). by rewrite IH.
Qed.

Lemma contains_extend kw pre s post :
  contains kw s = true → contains kw (pre +:+ s +:+ post) = true.
Proof.
  rewrite !contains_spec. intros (p & q & ->).
  exists (pre +:+ p), (q +:+ post). by rewrite !string_app_assoc.
Qed.

Lemma any_in_extend kws pre s post :
  any_in kws (lower s) = true →
  any_in kws (lower (pre +:+ s +:+ post)) = true.
Proof.
  unfold any_in. rewrite !existsb_exists. intros (kw & Hkw & Hin).
  exists kw. split; [done|]. rewrite !lower_app. by apply contains_extend.
Qed.

Lemma priority_inj_labels :
  Forall (λ a, Forall (λ b, priority a = priority b → a = b) industry_labels)
    industry_labels.
Proof. compute_done. Qed.

Lemma priority_inj (a b : string) :
  a ∈ industry_labels → b ∈ industry_labels → priority a = priority b → a = b.
Proof.
  intros Ha Hb.
  pose proof (proj1 (Forall_forall _ _) priority_inj_labels a Ha) as H.
  by apply (proj1 (Forall_forall _ _) H b Hb).
Qed.

Lemma priority_le_5 (a : string) : (priority a ≤ 5)%nat.
Proof. unfold priority. repeat case_decide; lia. Qed.

Lemma priority_of_longer_names (pre s post : string) :
  (priority (classify_industry (CStr (pre +:+ s +:+ post)))
   ≤ priority (classify_industry (CStr s)))%nat.
Proof.
  pose proof (λ kws, any_in_extend kws pre s post) as Hext.
  unfold classify_industry. cbv zeta.
  destruct (any_in ["crop"; "animal"; "farm"; "agriculture"] (lower s)) eqn:E1.
  { rewrite Hext by exact E1. vm_compute; lia. }
  destruct (any_in ["manufactur"; "factory"; "production"] (lower s)) eqn:E2.
  { rewrite (Hext ["manufactur"; "factory"; "production"]) by exact E2.
    destruct (any_in _ (lower (pre +:+ s +:+ post))); vm_compute; lia. }
  destruct (any_in ["retail"; "trade"; "shop"] (lower s)) eqn:E3.
  { rewrite (Hext ["retail"; "trade"; "shop"]) by exact E3.
    repeat (destruct (any_in _ (lower (pre +:+ s +:+ post)))); vm_compute; lia. }
  destruct (any_in ["poultry"; "cattle"; "livestock"] (lower s)) eqn:E4.
  { rewrite (Hext ["poultry"; "cattle"; "livestock"]) by exact E4.
    repeat (destruct (any_in _ (lower (pre +:+ s +:+ post)))); vm_compute; lia. }
  destruct (any_in ["mining"; "quarry"; "coal"] (lower s)) eqn:E5.
  { rewrite (Hext ["mining"; "quarry"; "coal"]) by exact E5.
    repeat (destruct (any_in _ (lower (pre +:+ s +:+ post)))); vm_compute; lia. }
  apply priority_le_5.
Qed.

(** X9.  Putting text before or after a name never moves its label down
    the priority order Agriculture, Manufacturing, Retail & Trade, Poultry
    & Livestock, Mining, Other: a keyword that occurs keeps occurring.  So
    an Agriculture name stays Agriculture however it is extended, and a
    name labelled Other contains no substring with another label. *)
Theorem classification_of_longer_names (pre s post : string) :
  (priority (classify_industry (CStr (pre +:+ s +:+ post)))
   ≤ priority (classify_industry (CStr s)))%nat
  ∧ (classify_industry (CStr s) = "Agriculture" →
     classify_industry (CStr (pre +:+ s +:+ post)) = "Agriculture")
  ∧ (classify_industry (CStr (pre +:+ s +:+ post)) = "Other" →
     classify_industry (CStr s) = "Other").
Proof.
  pose proof (priority_of_longer_names pre s post) as Hle.
  split; [done|]. split.
  - intros Hs. rewrite Hs in Hle.
    apply priority_inj; [apply classify_label|compute_done|].
    change (priority "Agriculture") with 0%nat in *. lia.
  - intros Hext. rewrite Hext in Hle.
    apply priority_inj; [apply classify_label|compute_done|].
    pose proof (priority_le_5 (classify_industry (CStr s))).
    change (priority "Other") with 5%nat in *. lia.
Qed.


(** ** The data of the charts *)





Lemma sorted_head_max {A} (f : A → Qc) (a : A) (rest : list A) :
  Sorted (λ a b, f b ≤ f a) (a :: rest) → ∀ x, x ∈ a :: rest → f x ≤ f a.
Proof.
  intros Hs.
  assert (Transitive (λ a b : A, f b ≤ f a)) as Htrans.
  { intros x y z Hxy Hyz. by eapply Qcle_trans. }
  apply (Sorted_StronglySorted _) in Hs.
  apply StronglySorted_inv in Hs as [_ Hall].
  intros x [->|Hx]%elem_of_cons; [apply Qcle_refl|].
  by apply (proj1 (Forall_forall _ _) Hall).
Qed.



(** X13.  The growth chart of a non-empty validated table shows every
    category: the aggregate has at most six rows, so the eight largest
    are all of them.  The rows are in descending order of Growth Score and
    the first has the Growth Score of growth_industry; it is
    growth_industry itself when no other category ties with it.  This
    holds for any selection of the largest rows, whatever its order among
    equal scores. *)
Theorem growth_chart_shows_every_category
    (parse_float : string → option Qc)
    (nlargest : nat → list IndustryAggregate → list IndustryAggregate)
    (raw : DataFrame) :
  selects_largest nlargest →
  missing_cols raw = [] → rows raw ≠ [] →
  ∃ top_growth stats ins first rest,
    plot_growth_potential nlargest (process_data parse_float raw).1 = Ok top_growth
    ∧ industry_stats (process_data parse_float raw).1 = Ok stats
    ∧ generate_insights (process_data parse_float raw).1 = Ok ins
    ∧ top_growth ≡ₚ stats
    ∧ Sorted (λ a b, growth_score b ≤ growth_score a) top_growth
    ∧ top_growth = first :: rest
    ∧ growth_score first
      = category_growth (process_data parse_float raw).1 (growth_industry ins)
    ∧ ((∀ k, k ∈ categories (process_data parse_float raw).1 →
             k ≠ growth_industry ins →
             category_growth (process_data parse_float raw).1 k
             < category_growth (process_data parse_float raw).1 (growth_industry ins)) →
       category first = growth_industry ins).
Proof.
  intros Hsel Hall Hne.
  pose proof (validated_derived parse_float raw Hall) as Hdf.
  pose proof (validated_rows_nonempty parse_float raw Hall Hne) as Hne'.
  destruct (insights_of_derived _ Hdf Hne') as (ins & Hins & _ & Hgrowth & _).
  pose proof (industry_stats_derived _ Hdf) as Hstats.
  set (df := (process_data parse_float raw).1) in *.
  set (stats := (λ k, {| category := k;
                         total_workers := category_total df k;
                         female_ratio := category_mean "Female Ratio" df k;
                         urban_ratio := category_mean "Urban Ratio" df k;
                         growth_score := category_growth df k |})
                <$> categories df) in *.
  destruct (Hsel 8%nat stats) as (sorted & Hperm & Hsorted & Hn).
  assert (nlargest 8%nat stats = sorted) as Hall8.
  { rewrite Hn. apply take_ge. rewrite Hperm. unfold stats. rewrite length_fmap.
    pose proof (derived_categories_at_most_six parse_float raw Hall). fold df in H.
    lia. }
  assert (plot_growth_potential nlargest df = Ok sorted) as Hplot.
  { unfold plot_growth_potential. rewrite Hstats. cbn. by rewrite Hall8. }
  apply idxmax_keyed_max in Hgrowth as (Hin & Hmax & _).
  destruct sorted as [|first rest].
  { apply Permutation_nil_l in Hperm. unfold stats in Hperm.
    symmetry in Hperm. apply fmap_nil_inv in Hperm. rewrite Hperm in Hin.
    by apply elem_of_nil in Hin. }
  assert (first ∈ stats) as Hfirst by (rewrite <-Hperm; left).
  apply list_elem_of_fmap in Hfirst as (k & -> & Hk).
  assert (category_growth df k = category_growth df (growth_industry ins)) as Heq.
  { apply Qcle_antisym; [by apply Hmax|].
    apply (sorted_head_max growth_score _ _ Hsorted
             {| category := growth_industry ins;
                total_workers := category_total df (growth_industry ins);
                female_ratio := category_mean "Female Ratio" df (growth_industry ins);
                urban_ratio := category_mean "Urban Ratio" df (growth_industry ins);
                growth_score := category_growth df (growth_industry ins) |}).
    rewrite Hperm. unfold stats.
    by apply (list_elem_of_fmap_2 (λ k, {| category := k;
                         total_workers := category_total df k;
                         female_ratio := category_mean "Female Ratio" df k;
                         urban_ratio := category_mean "Urban Ratio" df k;
                         growth_score := category_growth df k |})). }
  eexists _, stats, ins, _, rest.
  split; [exact Hplot|]. split; [done|]. split; [done|]. split; [done|].
  split; [done|]. split; [done|]. split; [done|].
  intros Huniq. cbn. destruct (decide (k = growth_industry ins)) as [|Hnk]; [done|].
  specialize (Huniq k Hk Hnk). rewrite Heq in Huniq.
  by apply Qclt_not_eq in Huniq.
Qed.


Lemma merge_nlargest_selects : selects_largest merge_nlargest.
Proof.
  intros n l. eexists. split; [|split; [|reflexivity]].
  - apply merge_sort_Permutation.
  - apply Sorted_merge_sort. intros a b. apply (total Qcle).
Qed.

(** ** The properties at example tables *)


Lemma growth_score_bounds_witness :
  (missing_cols ratio_table = [])
  ∧ ((∀ r, r ∈ rows (process_data parse_decimal ratio_table).1 →
        0 ≤ num "Main_Workers_Total_Females" r
            + num "Marginal_Workers_Total_Females" r
        ∧ num "Main_Workers_Total_Females" r
          + num "Marginal_Workers_Total_Females" r ≤ num "Total Workers" r
        ∧ 0 ≤ num "Main_Workers_Urban_Persons" r
              + num "Marginal_Workers_Urban_Persons" r
        ∧ num "Main_Workers_Urban_Persons" r
          + num "Marginal_Workers_Urban_Persons" r ≤ num "Total Workers" r))
  ∧ (∃ stats,
    industry_stats (process_data parse_decimal ratio_table).1 = Ok stats
    ∧ Forall (λ a,
        (0 ≤ female_ratio a ∧ female_ratio a ≤ 1)
        ∧ (0 ≤ urban_ratio a ∧ urban_ratio a ≤ 1)
        ∧ (0 ≤ growth_score a ∧ growth_score a ≤ 1)) stats).
Proof.
  assert (missing_cols ratio_table = []) as H0.
  { reflexivity. }
  assert ((∀ r, r ∈ rows (process_data parse_decimal ratio_table).1 →
        0 ≤ num "Main_Workers_Total_Females" r
            + num "Marginal_Workers_Total_Females" r
        ∧ num "Main_Workers_Total_Females" r
          + num "Marginal_Workers_Total_Females" r ≤ num "Total Workers" r
        ∧ 0 ≤ num "Main_Workers_Urban_Persons" r
              + num "Marginal_Workers_Urban_Persons" r
        ∧ num "Main_Workers_Urban_Persons" r
          + num "Marginal_Workers_Urban_Persons" r ≤ num "Total Workers" r)) as H1.
  { refine (proj1 (Forall_forall _ _) _). compute_done. }
  split; [exact H0|].
  split; [exact H1|].
  exact (growth_score_bounds parse_decimal ratio_table H0 H1).
Defined.


Lemma sidebar_summary_counts_witness :
  (missing_cols example_table = [])
  ∧ (sidebar_summary (process_data parse_decimal example_table).1
  = Ok (grand_total (process_data parse_decimal example_table).1,
        nunique ((.!!! "NIC_Name") <$> rows example_table),
        length (categories (process_data parse_decimal example_table).1))
  ∧ (length (categories (process_data parse_decimal example_table).1) ≤ 6)%nat
  ∧ (length (categories (process_data parse_decimal example_table).1)
     ≤ nunique ((.!!! "NIC_Name") <$> rows example_table) + 1)%nat
  ∧ ((∀ r, r ∈ rows example_table → r !!! "NIC_Name" ≠ CNaN) →
     (length (categories (process_data parse_decimal example_table).1)
      ≤ nunique ((.!!! "NIC_Name") <$> rows example_table))%nat)
  ∧ (rows example_table ≠ [] →
     (1 ≤ length (categories (process_data parse_decimal example_table).1))%nat)).
Proof.
  assert (missing_cols example_table = []) as H0.
  { reflexivity. }
  split; [exact H0|].
  exact (sidebar_summary_counts parse_decimal example_table H0).
Defined.




Lemma growth_chart_shows_every_category_witness :
  (selects_largest merge_nlargest)
  ∧ (missing_cols example_table = [])
  ∧ (rows example_table ≠ [])
  ∧ (∃ top_growth stats ins first rest,
    plot_growth_potential merge_nlargest (process_data parse_decimal example_table).1 = Ok top_growth
    ∧ industry_stats (process_data parse_decimal example_table).1 = Ok stats
    ∧ generate_insights (process_data parse_decimal example_table).1 = Ok ins
    ∧ top_growth ≡ₚ stats
    ∧ Sorted (λ a b, growth_score b ≤ growth_score a) top_growth
    ∧ top_growth = first :: rest
    ∧ growth_score first
      = category_growth (process_data parse_decimal example_table).1 (growth_industry ins)
    ∧ ((∀ k, k ∈ categories (process_data parse_decimal example_table).1 →
             k ≠ growth_industry ins →
             category_growth (process_data parse_decimal example_table).1 k
             < category_growth (process_data parse_decimal example_table).1 (growth_industry ins)) →
       category first = growth_industry ins)).
Proof.
  assert (selects_largest merge_nlargest) as H0.
  { exact merge_nlargest_selects. }
  assert (missing_cols example_table = []) as H1.
  { reflexivity. }
  assert (rows example_table ≠ []) as H2.
  { discriminate. }
  split; [exact H0|].
  split; [exact H1|].
  split; [exact H2|].
  exact (growth_chart_shows_every_category parse_decimal merge_nlargest example_table H0 H1 H2).
Defined.

(** * Claims and properties that depend on the arithmetic *)

(** ** The aggregation over a machine arithmetic *)






(** ** Whole numbers in the exact range *)

Lemma magnitude_nonneg q : 0 ≤ magnitude q.
Proof.
  unfold magnitude. destruct (decide (q < 0)) as [Hlt|Hge].
  - apply Qclt_le_weak, Qcopp_le_compat in Hlt. exact Hlt.
  - by apply Qcnot_lt_le.
Qed.

Lemma le_magnitude q : q ≤ magnitude q.
Proof.
  unfold magnitude. destruct (decide (q < 0)) as [Hlt|Hge]; [|apply Qcle_refl].
  apply Qclt_le_weak in Hlt. eapply Qcle_trans; [exact Hlt|].
  apply Qcopp_le_compat in Hlt. exact Hlt.
Qed.

Lemma opp_le_magnitude q : - q ≤ magnitude q.
Proof.
  unfold magnitude. destruct (decide (q < 0)) as [Hlt|Hge]; [apply Qcle_refl|].
  apply Qcnot_lt_le in Hge. eapply Qcle_trans; [|exact Hge].
  apply Qcopp_le_compat in Hge. exact Hge.
Qed.

Lemma magnitude_le q m : q ≤ m → - q ≤ m → magnitude q ≤ m.
Proof. intros ??. unfold magnitude. by destruct (decide (q < 0)). Qed.

Lemma magnitude_plus x y : magnitude (x + y) ≤ magnitude x + magnitude y.
Proof.
  apply magnitude_le.
  - apply Qcplus_le_compat; apply le_magnitude.
  - replace (- (x + y)) with (- x + - y) by ring.
    apply Qcplus_le_compat; apply opp_le_magnitude.
Qed.

Lemma magnitude_series_sum l :
  magnitude (series_sum l) ≤ series_sum (magnitude <$> l).
Proof.
  induction l as [|x l IH]; [by unfold magnitude; destruct (decide _)|].
  rewrite fmap_cons, !series_sum_cons.
  eapply Qcle_trans; [apply magnitude_plus|].
  by apply Qcplus_le_compat; [apply Qcle_refl|].
Qed.


Lemma sum_magnitudes_nonneg l : 0 ≤ series_sum (magnitude <$> l).
Proof. apply series_sum_fmap_nonneg. intros x _. apply magnitude_nonneg. Qed.

Lemma magnitude_step s x rest (b : Qc) :
  0 ≤ rest → magnitude s + (magnitude x + rest) ≤ b →
  magnitude (s + x) ≤ b ∧ magnitude (s + x) + rest ≤ b.
Proof.
  intros Hrest Hb.
  assert (magnitude (s + x) + rest ≤ b) as Hstep.
  { eapply Qcle_trans; [|exact Hb]. rewrite Qcplus_assoc.
    apply Qcplus_le_compat; [apply magnitude_plus|apply Qcle_refl]. }
  split; [|done]. eapply Qcle_trans; [|exact Hstep].
  rewrite <-(Qcplus_0_r (magnitude (s + x))) at 1.
  by apply Qcplus_le_compat; [apply Qcle_refl|].
Qed.

Lemma is_integer_spec q : is_integer q = true ↔ ∃ n : Z, q = Qc_of_Z n.
Proof.
  unfold is_integer. split.
  - intros Hd%Pos.eqb_eq. exists (Qnum q). apply Qc_is_canon.
    destruct q as [[n d] Hq]. cbn [Qnum Qden this] in *. subst d.
    reflexivity.
  - intros [n ->]. apply Pos.eqb_eq. done.
Qed.

Lemma is_integer_plus x y :
  is_integer x = true → is_integer y = true → is_integer (x + y) = true.
Proof.
  intros [n ->]%is_integer_spec [m ->]%is_integer_spec.
  apply is_integer_spec. exists (n + m)%Z. by rewrite Z2Qc_inj_add.
Qed.

Lemma is_integer_series_sum l :
  Forall (λ x, is_integer x = true) l → is_integer (series_sum l) = true.
Proof.
  induction 1 as [|x l Hx _ IH]; [done|].
  rewrite series_sum_cons. by apply is_integer_plus.
Qed.

Lemma magnitude_Z n : magnitude (Qc_of_Z n) = Qc_of_Z (Z.abs n).
Proof.
  unfold magnitude. destruct (decide (Qc_of_Z n < 0)) as [Hlt|Hge].
  - rewrite <-Z2Qc_inj_0, <-Z2Qc_inj_lt in Hlt.
    by rewrite <-Z2Qc_inj_opp, Z.abs_neq by lia.
  - apply Qcnot_lt_le in Hge. rewrite <-Z2Qc_inj_0, <-Z2Qc_inj_le in Hge.
    by rewrite Z.abs_eq.
Qed.

Lemma whole_in_range q (b : Z) :
  is_integer q = true → magnitude q ≤ Qc_of_Z b →
  ∃ n : Z, q = Qc_of_Z n ∧ (Z.abs n ≤ b)%Z.
Proof.
  intros [n ->]%is_integer_spec Hle. exists n. split; [done|].
  rewrite magnitude_Z in Hle. by apply (proj2 (Z2Qc_inj_le _ _)).
Qed.

Lemma is_count_spec q :
  is_count q = true ↔ ∃ n : Z, q = Qc_of_Z n ∧ (Z.abs n ≤ 2 ^ 52)%Z.
Proof.
  unfold is_count. rewrite andb_true_iff, bool_decide_eq_true. split.
  - intros [Hi Hm]. by apply whole_in_range.
  - intros (n & -> & Hn). split; [apply is_integer_spec; by exists n|].
    rewrite magnitude_Z. by apply (proj1 (Z2Qc_inj_le _ _)).
Qed.

Lemma count_plus_whole x y :
  is_count x = true → is_count y = true →
  ∃ n : Z, x + y = Qc_of_Z n ∧ (Z.abs n ≤ 2 ^ 53)%Z.
Proof.
  intros (n & -> & Hn)%is_count_spec (m & -> & Hm)%is_count_spec.
  exists (n + m)%Z. split; [by rewrite Z2Qc_inj_add|].
  change (2 ^ 53)%Z with (2 ^ 52 + 2 ^ 52)%Z. lia.
Qed.

Lemma series_sum_whole l :
  Forall (λ x, is_integer x = true) l →
  series_sum (magnitude <$> l) ≤ Qc_of_Z (2 ^ 53) →
  ∃ n : Z, series_sum l = Qc_of_Z n ∧ (Z.abs n ≤ 2 ^ 53)%Z.
Proof.
  intros Hint Hsum. apply whole_in_range.
  - by apply is_integer_series_sum.
  - eapply Qcle_trans; [apply magnitude_series_sum|done].
Qed.






(** ** Exact arithmetic, int64 and doubles on such numbers *)

Lemma exact_sums_exact : exact_sums exact.
Proof. by intros l _ _. Qed.



Lemma exact_add_exact : exact_add exact.
Proof. by intros x y _ _. Qed.

Lemma rnd_keeps_sign_exact : rnd_keeps_sign exact.
Proof. by intros x. Qed.

Lemma int64_wrap_small n : (Z.abs n ≤ 2 ^ 53)%Z → int64_wrap n = n.
Proof.
  intros Hn. unfold int64_wrap. rewrite Z.mod_small; lia.
Qed.

Lemma wrap64_whole n : (Z.abs n ≤ 2 ^ 53)%Z → wrap64 (Qc_of_Z n) = Qc_of_Z n.
Proof.
  intros Hn. unfold wrap64.
  replace (Qfloor (Qc_of_Z n)) with n by (symmetry; apply Qfloor_Z).
  by rewrite int64_wrap_small.
Qed.

Lemma exact_add_int64 group : exact_add (int64_counts group).
Proof.
  intros x y Hx Hy. cbn.
  destruct (count_plus_whole x y Hx Hy) as (n & -> & Hn). by apply wrap64_whole.
Qed.

Lemma exact_sums_int64 group : exact_sums (int64_counts group).
Proof.
  intros l Hint Hsum. cbn.
  destruct (series_sum_whole l Hint Hsum) as (n & -> & Hn).
  by rewrite wrap64_whole.
Qed.

Lemma round_half_even_nonneg num den :
  (0 ≤ num)%Z → (0 < den)%Z → (0 ≤ round_half_even num den)%Z.
Proof.
  intros Hn Hd. unfold round_half_even.
  pose proof (Z.div_pos num den Hn Hd).
  destruct (2 * (num mod den) ?= den)%Z; [destruct (Z.even _)|..]; lia.
Qed.

Lemma round_half_even_whole num : round_half_even num 1 = num.
Proof.
  unfold round_half_even. rewrite Z.mod_1_r, Z.div_1_r. done.
Qed.

Lemma Q2Qc_nonneg (x : Q) : (0 <= x)%Q → 0 ≤ Q2Qc x.
Proof.
  intros Hx. unfold Qcle. cbn [this Q2Qc]. rewrite !Qred_correct. exact Hx.
Qed.

Lemma round64_nonneg q : 0 ≤ q → 0 ≤ round64 q.
Proof.
  intros Hq. unfold round64.
  destruct (Z.abs (Qnum q) =? 0)%Z eqn:Hz; [apply Qcle_refl|].
  apply Z.eqb_neq in Hz.
  assert (0 ≤ Qnum q)%Z as Hn.
  { unfold Qcle, Qle in Hq. simpl in Hq. lia. }
  apply Q2Qc_nonneg, Qmult_le_0_compat.
  - rewrite Z.sgn_pos by lia. rewrite Z.mul_1_l.
    change 0%Q with (inject_Z 0). rewrite <-Zle_Qle.
    apply round_half_even_nonneg; [|nia].
    apply Z.mul_nonneg_nonneg; [lia|]. apply Z.pow_nonneg. lia.
  - apply Qpower_0_le. done.
Qed.

Lemma binade_whole a : (0 < a)%Z → binade a 1 = Z.log2 a.
Proof.
  intros Ha. unfold binade. change (Z.log2 1) with 0%Z. rewrite Z.sub_0_r.
  pose proof (Z.log2_nonneg a) as He.
  rewrite Z.max_l, Z.max_r by lia. rewrite Z.pow_0_r, Z.mul_1_r, Z.mul_1_l.
  pose proof (proj1 (Z.log2_spec a Ha)) as Hlo.
  destruct (a <? 2 ^ Z.log2 a)%Z eqn:Hlt; [|done]. apply Z.ltb_lt in Hlt. lia.
Qed.

Lemma scaled_back (x k : Z) :
  (0 ≤ k)%Z → (inject_Z (x * 2 ^ k) * 2 ^ (- k) == inject_Z x)%Q.
Proof.
  intros Hk. rewrite inject_Z_mult, Zpower_Qpower by done.
  rewrite Qpower_opp. change (inject_Z 2) with 2%Q. field.
  apply Qpower_not_0. done.
Qed.

(** A whole number of magnitude at most 2^53 is a double. *)
Lemma round64_whole n : (Z.abs n ≤ 2 ^ 53)%Z → round64 (Qc_of_Z n) = Qc_of_Z n.
Proof.
  intros Hn. unfold round64. change (Qnum (Qc_of_Z n)) with n.
  change (Z.pos (Qden (Qc_of_Z n))) with 1%Z.
  destruct (Z.abs n =? 0)%Z eqn:Hz.
  { apply Z.eqb_eq in Hz. replace n with 0%Z by lia.
    symmetry. apply Z2Qc_inj_0. }
  apply Z.eqb_neq in Hz. rewrite binade_whole by lia.
  assert (0 ≤ Z.log2 (Z.abs n) ≤ 53)%Z as He.
  { split; [apply Z.log2_nonneg|].
    change 53%Z with (Z.log2 (2 ^ 53)). by apply Z.log2_le_mono. }
  rewrite (Z.max_l _ (-1074)) by lia.
  assert (Z.sgn n * Z.abs n = n)%Z as Hsgn by lia.
  apply Qc_is_canon. cbn [this Q2Qc]. rewrite Qred_correct.
  change (this (Qc_of_Z n)) with (inject_Z n).
  destruct (decide (Z.log2 (Z.abs n) = 53%Z)) as [He53|Hne].
  - assert (Z.abs n = 2 ^ 53)%Z as Ha.
    { pose proof (proj1 (Z.log2_spec (Z.abs n) ltac:(lia))) as Hlo.
      rewrite He53 in Hlo. lia. }
    rewrite He53, Ha. change (round_half_even _ _) with (2 ^ 52)%Z.
    rewrite <-Hsgn, Ha. change (53 - 52)%Z with 1%Z.
    rewrite !inject_Z_mult. change (inject_Z (2 ^ 52)) with (2 ^ 52)%Q.
    change (inject_Z (2 ^ 53)) with (2 ^ 53)%Q. vm_compute (2 ^ 1)%Q.
    vm_compute (2 ^ 52)%Q. vm_compute (2 ^ 53)%Q.
    unfold Qeq. cbn [Qnum Qden Qmult inject_Z]. lia.
  - rewrite Z.max_r, Z.max_l by lia. rewrite Z.pow_0_r, Z.mul_1_l.
    rewrite round_half_even_whole, Z.mul_assoc, Hsgn.
    replace (Z.log2 (Z.abs n) - 52)%Z with (- (52 - Z.log2 (Z.abs n)))%Z by lia.
    rewrite Z.opp_involutive. apply scaled_back. lia.
Qed.

Lemma round64_exact q :
  is_integer q = true → magnitude q ≤ Qc_of_Z (2 ^ 53) → round64 q = q.
Proof.
  intros Hi Hm. destruct (whole_in_range q _ Hi Hm) as (n & -> & Hn).
  by apply round64_whole.
Qed.

Lemma naive_sum_from s l :
  is_integer s = true → Forall (λ x, is_integer x = true) l →
  magnitude s + series_sum (magnitude <$> l) ≤ Qc_of_Z (2 ^ 53) →
  foldl (λ s x, round64 (s + x)) s l = s + series_sum l.
Proof.
  intros Hs Hl. revert s Hs. induction Hl as [|x l Hx _ IH]; intros s Hs Hb.
  - cbn. by rewrite Qcplus_0_r.
  - rewrite fmap_cons, series_sum_cons in Hb.
    destruct (magnitude_step s x _ _ (sum_magnitudes_nonneg l) Hb) as [H1 H2].
    cbn [foldl]. rewrite round64_exact by (done || by apply is_integer_plus).
    rewrite IH by (done || by apply is_integer_plus).
    rewrite series_sum_cons. ring.
Qed.

Lemma naive_sum_exact l :
  Forall (λ x, is_integer x = true) l →
  series_sum (magnitude <$> l) ≤ Qc_of_Z (2 ^ 53) →
  naive_sum l = series_sum l.
Proof.
  intros Hl Hb. unfold naive_sum. rewrite naive_sum_from; [ring|done..|].
  change (magnitude 0) with 0. by rewrite Qcplus_0_l.
Qed.

Lemma kahan_sum_from s l :
  is_integer s = true → Forall (λ x, is_integer x = true) l →
  magnitude s + series_sum (magnitude <$> l) ≤ Qc_of_Z (2 ^ 53) →
  foldl (λ sc x,
      let y := round64 (x - sc.2) in
      let t := round64 (sc.1 + y) in
      (t, round64 (round64 (t - sc.1) - y))) (s, 0) l
  = (s + series_sum l, 0).
Proof.
  intros Hs Hl. revert s Hs. induction Hl as [|x l Hx _ IH]; intros s Hs Hb.
  - cbn. by rewrite Qcplus_0_r.
  - rewrite fmap_cons, series_sum_cons in Hb.
    destruct (magnitude_step s x _ _ (sum_magnitudes_nonneg l) Hb) as [H1 H2].
    assert (magnitude x ≤ Qc_of_Z (2 ^ 53)) as Hxb.
    { eapply Qcle_trans; [|exact Hb].
      rewrite <-(Qcplus_0_l (magnitude x)) at 1.
      apply Qcplus_le_compat; [apply magnitude_nonneg|].
      rewrite <-(Qcplus_0_r (magnitude x)) at 1.
      apply Qcplus_le_compat; [apply Qcle_refl|apply sum_magnitudes_nonneg]. }
    cbn [foldl fst snd]. cbn zeta.
    replace (x - 0) with x by ring.
    rewrite (round64_exact x) by done.
    rewrite (round64_exact (s + x)) by (done || by apply is_integer_plus).
    replace (s + x - s) with x by ring. rewrite (round64_exact x) by done.
    replace (x - x) with 0 by ring. change (round64 0) with 0.
    rewrite IH by (done || by apply is_integer_plus).
    rewrite series_sum_cons. f_equal. ring.
Qed.

Lemma kahan_sum_exact l :
  Forall (λ x, is_integer x = true) l →
  series_sum (magnitude <$> l) ≤ Qc_of_Z (2 ^ 53) →
  kahan_sum l = series_sum l.
Proof.
  intros Hl Hb. unfold kahan_sum. rewrite kahan_sum_from; [cbn; ring|done..|].
  change (magnitude 0) with 0. by rewrite Qcplus_0_l.
Qed.

Lemma float_sum_exact how l :
  Forall (λ x, is_integer x = true) l →
  series_sum (magnitude <$> l) ≤ Qc_of_Z (2 ^ 53) →
  float_sum how l = series_sum l.
Proof. destruct how; [apply naive_sum_exact|apply kahan_sum_exact]. Qed.

Lemma exact_sums_doubles group series : exact_sums (doubles group series).
Proof. intros l Hl Hb. cbn. by rewrite !float_sum_exact. Qed.

Lemma exact_add_doubles group series : exact_add (doubles group series).
Proof.
  intros x y Hx Hy. cbn.
  destruct (count_plus_whole x y Hx Hy) as (n & -> & Hn). by apply round64_whole.
Qed.

Lemma rnd_keeps_sign_doubles group series : rnd_keeps_sign (doubles group series).
Proof. intros x. apply round64_nonneg. Qed.

Lemma rnd_keeps_sign_int64 group : rnd_keeps_sign (int64_counts group).
Proof. intros x. apply round64_nonneg. Qed.

(** Exact arithmetic, int64 and doubles, with either loop, have the
    properties that the statements below ask of an arithmetic. *)
Lemma machine_arithmetic_in_range (group series : summation) :
  (exact_add exact ∧ exact_sums exact ∧ rnd_keeps_sign exact)
  ∧ (exact_add (int64_counts group) ∧ exact_sums (int64_counts group)
     ∧ rnd_keeps_sign (int64_counts group))
  ∧ (exact_add (doubles group series) ∧ exact_sums (doubles group series)
     ∧ rnd_keeps_sign (doubles group series)).
Proof.
  split; [|split]; (split; [|split]).
  - apply exact_add_exact.
  - apply exact_sums_exact.
  - apply rnd_keeps_sign_exact.
  - apply exact_add_int64.
  - apply exact_sums_int64.
  - apply rnd_keeps_sign_int64.
  - apply exact_add_doubles.
  - apply exact_sums_doubles.
  - apply rnd_keeps_sign_doubles.
Qed.

(** ** The transformer over a machine arithmetic, row by row *)













(** ** Ratios *)




(** ** Coercion *)




(** ** The largest category *)



(** ** Growth Score *)




(** Two Growth Scores that are equal in exact arithmetic need not be equal
    in doubles: 0 * 0.4 + 1 * 0.6 is the double nearest to 3/5, and
    0.75 * 0.4 + 0.5 * 0.6 is the next double above it.  So Agriculture
    and Manufacturing tie in exact arithmetic, where growth_industry is
    Agriculture, and in doubles Manufacturing has the greater score and is
    growth_industry. *)
Lemma doubles_break_an_exact_tie :
  let A := doubles Compensated Plain in
  let df := (process_data_with A parse_decimal rounding_table).1 in
  (λ r, (label r, num "Urban Ratio" r, num "Female Ratio" r)) <$> rows df
  = [("Agriculture", 0, 1); ("Manufacturing", Q2Qc (3 # 4), Q2Qc (1 # 2))]
  ∧ fmap (M := list) (λ a, (category a, growth_score a)) <$> industry_stats df
    = Ok [("Agriculture", Q2Qc (3 # 5)); ("Manufacturing", Q2Qc (3 # 5))]
  ∧ growth_industry <$> generate_insights df = Ok "Agriculture"
  ∧ fmap (M := list) (λ a, (category a, growth_score a)) <$> industry_stats_with A df
    = Ok [("Agriculture", round64 (Q2Qc (3 # 5)));
          ("Manufacturing", Q2Qc (1351079888211149 # 2251799813685248))]
  ∧ round64 (Q2Qc (3 # 5)) < Q2Qc (1351079888211149 # 2251799813685248)
  ∧ growth_industry <$> generate_insights_with A df = Ok "Manufacturing".
Proof.
  intros A df.
  split; [vm_compute; repeat (f_equal; try by apply Qc_is_canon)|].
  split; [vm_compute; repeat (f_equal; try by apply Qc_is_canon)|].
  split; [vm_compute; reflexivity|].
  split; [vm_compute; repeat (f_equal; try by apply Qc_is_canon)|].
  split; [compute_done|].
  vm_compute; reflexivity.
Qed.

(** ** Ties *)



(** ** Row order in machine arithmetic *)



(** ** Percentages *)




